(** * BehaviourTree-ai: the fluent tree builder and the AlwaysFail decorator

    A shallow embedding of [behaviourTree/BehaviorTreeBuilder.ts] and
    [behaviourTree/decorators/AlwaysFail.ts].

    The TypeScript objects live in one heap of nodes; a reference is an index
    into that heap, so that a node held both by the parent stack and by its
    parent's child list is one shared object.  A method is a state
    transformer that either completes normally or throws, and the state
    reached so far survives the throw, as the mutated object does in
    JavaScript. *)

From Stdlib Require Import PrimFloat.
From stdpp Require Import base option list relations strings.

Set Default Proof Using "Type".

(** ** Statuses and faults *)

(** Modelled from the spec: the [TaskStatus] enum is declared outside the two
    source files, which name its members [Success], [Failure] and [Running];
    section 3 of the spec gives it as the tri-state value with exactly these
    members. *)
Inductive TaskStatus := Success | Failure | Running.

#[global] Instance TaskStatus_eq_dec : EqDecision TaskStatus.
Proof. solve_decision. Defined.

(** The construction-time faults.  The source throws errors that differ only in
    their message text; the names are those of section 7 of the spec:
    - [EmptyParentStack]: a leaf is created with no open parent;
    - [NotAComposite]: [endComposite] while the top frame is no composite;
    - [EmptyTree]: [build] with no current node;
    - [MissingChild]: a decorator is updated without a child. *)
Inductive Fault := EmptyParentStack | NotAComposite | EmptyTree | MissingChild.

#[global] Instance Fault_eq_dec : EqDecision Fault.
Proof. solve_decision. Defined.

(** ** Methods as state transformers that may throw *)

Inductive Completion (A : Type) :=
  | Normal (a : A)
  | Throw (e : Fault).
Arguments Normal {A} a.
Arguments Throw {A} e.

Definition Eff (S A : Type) : Type := S → Completion A * S.

#[global] Instance Eff_ret {S} : MRet (Eff S) := λ A a s, (Normal a, s).

#[global] Instance Eff_bind {S} : MBind (Eff S) := λ A B k m s,
  match m s with
  | (Normal a, s') => k a s'
  | (Throw e, s') => (Throw e, s')
  end.

Definition throw {S A} (e : Fault) : Eff S A := λ s, (Throw e, s).

Definition gets {S A} (f : S → A) : Eff S A := λ s, (Normal (f s), s).

Definition modify {S} (f : S → S) : Eff S unit := λ s, (Normal tt, f s).

(** ** Helpers declared outside the two source files *)

Module Assert.

(** Modelled from the spec: the [Assert] class is not among the source
    files.  Section 4.1 and section 7 say that a call whose precondition
    does not hold fails, synchronously, with the fault of that
    precondition; an assertion that holds has no effect. *)
Definition isFalse {S} (condition : bool) (e : Fault) : Eff S unit :=
  if condition then throw e else mret tt.

(** Modelled from the spec: [Assert.isTrue], the mirror image of
    [Assert.isFalse]: the fault is raised when the condition does not
    hold. *)
Definition isTrue {S} (condition : bool) (e : Fault) : Eff S unit :=
  if condition then mret tt else throw e.

(** Modelled from the spec: [Assert.isNotNull]; section 4.2 has a decorator
    that is evaluated without a child fail with [MissingChild]. *)
Definition isNotNull {S A} (item : option A) (e : Fault) : Eff S unit :=
  match item with
  | Some _ => mret tt
  | None => throw e
  end.

End Assert.

Module ArrayExt.

(** Modelled from the spec: the [ArrayExt] helper is not among the source
    files.  Section 3 describes the parent stack as an ordered,
    append/remove-from-end (LIFO) sequence, so [peek] reads the last
    element; on an empty array it gives [undefined], here [None]. *)
Definition peek {A} (items : list A) : option A := last items.

(** Modelled from the spec: [ArrayExt.push] appends at the end. *)
Definition push {A} (items : list A) (item : A) : list A := items ++ [item].

(** Modelled from the spec: [ArrayExt.pop] removes the last element and
    returns it, [undefined] on an empty array. *)
Definition pop {A} (items : list A) : option A * list A :=
  (last items, removelast items).

End ArrayExt.

(** ** decorators/AlwaysFail.ts *)

Module AlwaysFail.
Section AlwaysFail.

(** [T] is the context type of the tree; [W] is whatever state the nodes
    and the context keep between calls, which a child's [update] may read
    and change. *)
Context {T W : Type}.

(** The [Behavior<T>] interface as far as the decorator uses it: the
    dynamically dispatched [update(context)]. *)
Class Behavior (B : Type) := update : B → T → Eff W TaskStatus.

(** [Decorator<T>] as far as it is used here: its [child] field, which is
    [undefined] until the builder assigns it. *)
Record AlwaysFail (B : Type) := { child : option B }.
Arguments child {B} _.

Definition AlwaysFail_update {B} `{!Behavior B}
    (this : AlwaysFail B) (context : T) : Eff W TaskStatus :=
  Assert.isNotNull (child this) MissingChild;;
  match child this with
  | None => throw MissingChild
  | Some c =>
      status ← update c context;
      if decide (status = Running) then mret Running
      else mret Failure
  end.

#[global] Instance AlwaysFail_Behavior {B} `{!Behavior B} :
  Behavior (AlwaysFail B) := AlwaysFail_update.

End AlwaysFail.
Arguments child {B} _.
Arguments Build_AlwaysFail {B} _.
End AlwaysFail.

(** ** BehaviorTreeBuilder.ts *)

(** [instanceof Composite] and [instanceof Decorator]: the two capabilities a
    frame of the parent stack can have. *)
Inductive Capability := CompositeCapable | DecoratorCapable.

(** The classes of parent nodes whose declarations are outside the source
    files and which section 4.1 of the spec places on neither side: their
    capability is taken as a parameter. *)
Inductive UnlistedClass :=
  | RepeaterClass | UntilFailClass | UntilSuccessClass
  | ParallelSelectorClass | RandomSelectorClass | RandomSequenceClass.

(** What the builder takes from declarations outside the source files: the
    [AbortTypes] enum with its member [None], and the superclass of each
    unlisted parent class. *)
Class Externals := {
  AbortTypes : Type;
  AbortTypes_None : AbortTypes;
  superclass : UnlistedClass → Capability
}.

Module BehaviorTreeBuilder.

(** A reference to a node: its index in the heap. *)
Abbreviation ref := nat (only parsing).

Section Builder.

Context {T : Type} `{Externals}.

(** [BehaviorTree<T>] as the builder makes it: the three constructor
    arguments. *)
Record BehaviorTree := {
  context : T;
  root : ref;
  updatePeriod : float
}.

(** The leaf classes, with their constructor arguments. *)
Inductive LeafClass :=
  | ExecuteAction (func : T → TaskStatus)
  | ExecuteActionConditional (func : T → TaskStatus)
  | LogAction (text : string)
  | WaitAciton (waitTime : float)
  | BehaviorTreeReference (subTree : BehaviorTree).

(** The parent classes, with their constructor arguments.  The conditional
    of a [ConditionalDecorator] is an [ExecuteActionConditional] made for it
    alone and never touched again by the builder; it is kept by its
    function. *)
Inductive ParentClass :=
  | ConditionalDecorator (conditional : T → TaskStatus) (shouldReevaluate : bool)
  | AlwaysFail
  | AlwaysSucceed
  | Inverter
  | Repeater (count : float)
  | UntilFail
  | UntilSuccess
  | Parallel
  | ParallelSelector
  | Selector (abortType : AbortTypes)
  | RandomSelector
  | Sequence (abortType : AbortTypes)
  | RandomSequence.

(** Modelled from the spec: which of [Composite] and [Decorator] a parent
    class extends.  Only [AlwaysFail] has its declaration among the source
    files (it extends [Decorator]); section 4.1 names sequence, selector and
    parallel as composites and inverter, always-succeed and
    conditional-decorator as decorators.  The rest is read from
    [superclass]. *)
Definition capability (cls : ParentClass) : Capability :=
  match cls with
  | AlwaysFail => DecoratorCapable
  | ConditionalDecorator _ _ | AlwaysSucceed | Inverter => DecoratorCapable
  | Parallel | Selector _ | Sequence _ => CompositeCapable
  | Repeater _ => superclass RepeaterClass
  | UntilFail => superclass UntilFailClass
  | UntilSuccess => superclass UntilSuccessClass
  | ParallelSelector => superclass ParallelSelectorClass
  | RandomSelector => superclass RandomSelectorClass
  | RandomSequence => superclass RandomSequenceClass
  end.

(** A node object: a composite with its ordered children, a decorator with
    its child slot, or a leaf. *)
Inductive Behavior :=
  | Composite (cls : ParentClass) (children : list ref)
  | Decorator (cls : ParentClass) (child : option ref)
  | Leaf (cls : LeafClass).

(** Modelled from the spec: [Composite.addChild] is declared outside the
    source files; section 4.1 has it append the child to the ordered
    children. *)
Definition addChild (children : list ref) (child : ref) : list ref :=
  children ++ [child].

(** The builder object together with the heap its references point into. *)
Record BehaviorTreeBuilder := {
  heap : list Behavior;
  _context : T;
  _currentNode : option ref;
  _parentNodeStack : list ref
}.

Definition set_heap (f : list Behavior → list Behavior)
    (this : BehaviorTreeBuilder) : BehaviorTreeBuilder :=
  {| heap := f (heap this); _context := _context this;
     _currentNode := _currentNode this;
     _parentNodeStack := _parentNodeStack this |}.

Definition set_currentNode (node : option ref)
    (this : BehaviorTreeBuilder) : BehaviorTreeBuilder :=
  {| heap := heap this; _context := _context this;
     _currentNode := node;
     _parentNodeStack := _parentNodeStack this |}.

Definition set_parentNodeStack (stack : list ref)
    (this : BehaviorTreeBuilder) : BehaviorTreeBuilder :=
  {| heap := heap this; _context := _context this;
     _currentNode := _currentNode this;
     _parentNodeStack := stack |}.

Abbreviation Method := (Eff BehaviorTreeBuilder).

(** [new C(...)]: the object is placed at the end of the heap. *)
Definition new (node : Behavior) : Method ref := λ this,
  (Normal (length (heap this)), set_heap (λ h, h ++ [node]) this).

(** A parent object as its constructor leaves it: a composite without
    children, a decorator with its child undefined. *)
Definition newParent (cls : ParentClass) : Method ref :=
  match capability cls with
  | CompositeCapable => new (Composite cls [])
  | DecoratorCapable => new (Decorator cls None)
  end.

(** The constructor; [objects] is the heap at the time of the call. *)
Definition begin (objects : list Behavior) (context : T) : BehaviorTreeBuilder :=
  {| heap := objects; _context := context;
     _currentNode := None; _parentNodeStack := [] |}.

(** [this._currentNode = ArrayExt.pop(this._parentNodeStack)] *)
Definition popIntoCurrentNode (this : BehaviorTreeBuilder) : BehaviorTreeBuilder :=
  let '(top, rest) := ArrayExt.pop (_parentNodeStack this) in
  set_parentNodeStack rest (set_currentNode top this).

Definition endDecorator : Method unit := modify popIntoCurrentNode.

Definition setChildOnParent (child : ref) : Method unit :=
  parent ← gets (λ this, ArrayExt.peek (_parentNodeStack this));
  match parent with
  | Some parent =>
      object ← gets (λ this, heap this !! parent);
      match object with
      | Some (Composite cls children) =>
          modify (set_heap <[parent := Composite cls (addChild children child)]>)
      | Some (Decorator cls _) =>
          (* a decorator has one child only, so it ends by itself *)
          modify (set_heap <[parent := Decorator cls (Some child)]>);;
          endDecorator
      | _ => mret tt
      end
  | None => mret tt
  end.

Definition pushParentNode (composite : ref) : Method unit :=
  len ← gets (λ this, length (_parentNodeStack this));
  (if 0 <? len then setChildOnParent composite else mret tt);;
  modify (λ this,
    set_parentNodeStack (ArrayExt.push (_parentNodeStack this) composite) this).

(** *** Leaves *)

Definition action (func : T → TaskStatus) : Method unit :=
  len ← gets (λ this, length (_parentNodeStack this));
  Assert.isFalse (len =? 0) EmptyParentStack;;
  child ← new (Leaf (ExecuteAction func));
  setChildOnParent child.

Definition actionR (func : T → bool) : Method unit :=
  action (λ t, if func t then Success else Failure).

Definition conditional (func : T → TaskStatus) : Method unit :=
  len ← gets (λ this, length (_parentNodeStack this));
  Assert.isFalse (len =? 0) EmptyParentStack;;
  child ← new (Leaf (ExecuteActionConditional func));
  setChildOnParent child.

Definition conditionalR (func : T → bool) : Method unit :=
  conditional (λ t, if func t then Success else Failure).

Definition logAction (text : string) : Method unit :=
  len ← gets (λ this, length (_parentNodeStack this));
  Assert.isFalse (len =? 0) EmptyParentStack;;
  child ← new (Leaf (LogAction text));
  setChildOnParent child.

Definition waitAction (waitTime : float) : Method unit :=
  len ← gets (λ this, length (_parentNodeStack this));
  Assert.isFalse (len =? 0) EmptyParentStack;;
  child ← new (Leaf (WaitAciton waitTime));
  setChildOnParent child.

Definition subTree (subTree : BehaviorTree) : Method unit :=
  len ← gets (λ this, length (_parentNodeStack this));
  Assert.isFalse (len =? 0) EmptyParentStack;;
  child ← new (Leaf (BehaviorTreeReference subTree));
  setChildOnParent child.

(** *** Decorators and composites.  An optional argument is [None] when the
    caller leaves it out. *)

Definition conditionalDecorator (func : T → TaskStatus)
    (shouldReevaluate : option bool) : Method unit :=
  node ← newParent (ConditionalDecorator func (default true shouldReevaluate));
  pushParentNode node.

Definition conditionalDecoratorR (func : T → bool)
    (shouldReevaluate : option bool) : Method unit :=
  conditionalDecorator (λ t, if func t then Success else Failure)
    (Some (default true shouldReevaluate)).

Definition alwaysFail : Method unit :=
  node ← newParent AlwaysFail; pushParentNode node.

Definition alwaysSucceed : Method unit :=
  node ← newParent AlwaysSucceed; pushParentNode node.

Definition inverter : Method unit :=
  node ← newParent Inverter; pushParentNode node.

Definition repeater (count : float) : Method unit :=
  node ← newParent (Repeater count); pushParentNode node.

Definition untilFail : Method unit :=
  node ← newParent UntilFail; pushParentNode node.

Definition untilSuccess : Method unit :=
  node ← newParent UntilSuccess; pushParentNode node.

Definition paraller : Method unit :=
  node ← newParent Parallel; pushParentNode node.

Definition parallelSelector : Method unit :=
  node ← newParent ParallelSelector; pushParentNode node.

Definition selector (abortType : option AbortTypes) : Method unit :=
  node ← newParent (Selector (default AbortTypes_None abortType));
  pushParentNode node.

Definition randomSelector : Method unit :=
  node ← newParent RandomSelector; pushParentNode node.

Definition sequence (abortType : option AbortTypes) : Method unit :=
  node ← newParent (Sequence (default AbortTypes_None abortType));
  pushParentNode node.

Definition randomSequence : Method unit :=
  node ← newParent RandomSequence; pushParentNode node.

(** [peek(stack) instanceof Composite] *)
Definition topIsComposite (this : BehaviorTreeBuilder) : bool :=
  match ArrayExt.peek (_parentNodeStack this) ≫= (heap this !!.) with
  | Some (Composite _ _) => true
  | _ => false
  end.

Definition endComposite : Method unit :=
  isComposite ← gets topIsComposite;
  Assert.isTrue isComposite NotAComposite;;
  modify popIntoCurrentNode.

(** The default [updatePeriod] is the double written 0.2. *)
Definition build (updatePeriod : option float) : Method BehaviorTree :=
  currentNode ← gets _currentNode;
  match currentNode with
  | None => throw EmptyTree
  | Some currentNode =>
      context ← gets _context;
      mret {| context := context; root := currentNode;
              updatePeriod := default 0x1.999999999999ap-3%float updatePeriod |}
  end.

(** *** Call sequences of the fluent interface *)

Inductive Call :=
  | call_action (func : T → TaskStatus)
  | call_actionR (func : T → bool)
  | call_conditional (func : T → TaskStatus)
  | call_conditionalR (func : T → bool)
  | call_logAction (text : string)
  | call_waitAction (waitTime : float)
  | call_subTree (tree : BehaviorTree)
  | call_conditionalDecorator (func : T → TaskStatus) (shouldReevaluate : option bool)
  | call_conditionalDecoratorR (func : T → bool) (shouldReevaluate : option bool)
  | call_alwaysFail
  | call_alwaysSucceed
  | call_inverter
  | call_repeater (count : float)
  | call_untilFail
  | call_untilSuccess
  | call_paraller
  | call_parallelSelector
  | call_selector (abortType : option AbortTypes)
  | call_randomSelector
  | call_sequence (abortType : option AbortTypes)
  | call_randomSequence
  | call_endComposite.

Definition call (c : Call) : Method unit :=
  match c with
  | call_action func => action func
  | call_actionR func => actionR func
  | call_conditional func => conditional func
  | call_conditionalR func => conditionalR func
  | call_logAction text => logAction text
  | call_waitAction waitTime => waitAction waitTime
  | call_subTree tree => subTree tree
  | call_conditionalDecorator func s => conditionalDecorator func s
  | call_conditionalDecoratorR func s => conditionalDecoratorR func s
  | call_alwaysFail => alwaysFail
  | call_alwaysSucceed => alwaysSucceed
  | call_inverter => inverter
  | call_repeater count => repeater count
  | call_untilFail => untilFail
  | call_untilSuccess => untilSuccess
  | call_paraller => paraller
  | call_parallelSelector => parallelSelector
  | call_selector abortType => selector abortType
  | call_randomSelector => randomSelector
  | call_sequence abortType => sequence abortType
  | call_randomSequence => randomSequence
  | call_endComposite => endComposite
  end.

(** [b.c1(..).c2(..)...]: each method returns the builder, and a throw
    ends the chain. *)
Fixpoint chain (calls : list Call) : Method unit :=
  match calls with
  | [] => mret tt
  | c :: calls => call c;; chain calls
  end.

End Builder.
End BehaviorTreeBuilder.

(** ** Vocabulary of the properties *)

Import BehaviorTreeBuilder.

(** One way to fill in the declarations that are outside the source files,
    used to run the builder on concrete call sequences: numbers for
    [AbortTypes], with 0 for its member [None], the repeat and until nodes
    as decorators and the remaining selectors and sequences as composites. *)
Definition sampleExternals : Externals := {|
  AbortTypes := nat;
  AbortTypes_None := 0;
  superclass := λ c,
    match c with
    | RepeaterClass | UntilFailClass | UntilSuccessClass => DecoratorCapable
    | ParallelSelectorClass | RandomSelectorClass | RandomSequenceClass =>
        CompositeCapable
    end
|}.

(** A builder to run call sequences on: it begins on an empty heap, with the
    unit value for context.  [succeed] is the function [_ => Success]. *)
Definition start : @BehaviorTreeBuilder unit sampleExternals := begin [] tt.

Definition succeed : unit → TaskStatus := λ _, Success.

(** A child to run a decorator on: a function of the context that reports
    its result and touches no state. *)
Definition statelessChild {T W : Type} :
    AlwaysFail.Behavior (T:=T) (W:=W) (T → TaskStatus) :=
  λ f context w, (Normal (f context), w).

Section Vocabulary.

Context {T : Type} `{Externals}.

Implicit Types (this : @BehaviorTreeBuilder T _) (node : @Behavior T _).

(** The depth of the parent stack. *)
Definition depth this : nat := length (_parentNodeStack this).

(** The state a method leaves behind, and how it completed. *)
Definition after {A} (m : Eff (@BehaviorTreeBuilder T _) A) this :
  @BehaviorTreeBuilder T _ := (m this).2.

Definition completion {A} (m : Eff (@BehaviorTreeBuilder T _) A) this :
  Completion A := (m this).1.

(** The function that returns [Success] when [f] returns [true] and
    [Failure] when it returns [false]. *)
Definition successWhenTrue (f : T → bool) : T → TaskStatus :=
  λ t, match f t with
       | true => Success
       | false => Failure
       end.

(** The leaf a leaf-adding call creates. *)
Definition leafOf (c : @Call T _) : option (@LeafClass T) :=
  match c with
  | call_action func => Some (ExecuteAction func)
  | call_actionR func =>
      Some (ExecuteAction (λ t, if func t then Success else Failure))
  | call_conditional func => Some (ExecuteActionConditional func)
  | call_conditionalR func =>
      Some (ExecuteActionConditional (λ t, if func t then Success else Failure))
  | call_logAction text => Some (LogAction text)
  | call_waitAction waitTime => Some (WaitAciton waitTime)
  | call_subTree tree => Some (BehaviorTreeReference tree)
  | _ => None
  end.

(** The class of the parent an open-parent call creates. *)
Definition parentOf (c : @Call T _) : option (@ParentClass T _) :=
  match c with
  | call_conditionalDecorator func s =>
      Some (ConditionalDecorator func (default true s))
  | call_conditionalDecoratorR func s =>
      Some (ConditionalDecorator (λ t, if func t then Success else Failure)
              (default true s))
  | call_alwaysFail => Some AlwaysFail
  | call_alwaysSucceed => Some AlwaysSucceed
  | call_inverter => Some Inverter
  | call_repeater count => Some (Repeater count)
  | call_untilFail => Some UntilFail
  | call_untilSuccess => Some UntilSuccess
  | call_paraller => Some Parallel
  | call_parallelSelector => Some ParallelSelector
  | call_selector abortType => Some (Selector (default AbortTypes_None abortType))
  | call_randomSelector => Some RandomSelector
  | call_sequence abortType => Some (Sequence (default AbortTypes_None abortType))
  | call_randomSequence => Some RandomSequence
  | _ => None
  end.

(** The common shape of the leaf-adding methods and of the open-parent
    methods. *)
Definition addLeaf (cls : @LeafClass T) : Eff (@BehaviorTreeBuilder T _) unit :=
  len ← gets (λ this, length (_parentNodeStack this));
  Assert.isFalse (len =? 0) EmptyParentStack;;
  child ← new (Leaf cls);
  setChildOnParent child.

Definition openParent (cls : @ParentClass T _) : Eff (@BehaviorTreeBuilder T _) unit :=
  node ← newParent cls; pushParentNode node.

(** The attach algorithm run on each of a list of nodes in turn. *)
Fixpoint attachAll (children : list ref) : Eff (@BehaviorTreeBuilder T _) unit :=
  match children with
  | [] => mret tt
  | child :: children => setChildOnParent child;; attachAll children
  end.

(** The object a reference on top of the stack points to. *)
Definition topFrame this : option (@Behavior T _) :=
  ArrayExt.peek (_parentNodeStack this) ≫= (heap this !!.).

(** [peek(stack) instanceof Decorator] *)
Definition topIsDecorator this : bool :=
  match topFrame this with
  | Some (Decorator _ _) => true
  | _ => false
  end.

(** Whether a call, made in state [this], closes a frame: pops it off the
    parent stack into [_currentNode].  [endComposite] does on a composite;
    any call that attaches a node does on a decorator. *)
Definition closes (c : @Call T _) this : bool :=
  match c with
  | call_endComposite => topIsComposite this
  | _ => topIsDecorator this
  end.

(** Whether some call of a chain run from [this] closes a frame. *)
Fixpoint everCloses (calls : list (@Call T _)) this : bool :=
  match calls with
  | [] => false
  | c :: calls => closes c this || everCloses calls (after (call c) this)
  end.

(** The tree structure of the heap: [edge h x y] when [y] is a child of the
    node at [x], and [inTree h r y] when [y] is [r] or below it. *)
Definition childrenOf node : list ref :=
  match node with
  | Composite _ children => children
  | Decorator _ child => option_list child
  | Leaf _ => []
  end.

Definition edge (h : list (@Behavior T _)) (x y : ref) : Prop :=
  ∃ node, h !! x = Some node ∧ y ∈ childrenOf node.

Definition inTree (h : list (@Behavior T _)) : ref → ref → Prop := rtc (edge h).

(** A node as its constructor leaves it, with whether the builder pushes it:
    a parent without children is pushed, a leaf is not. *)
Definition fresh node (push : bool) : Prop :=
  match node with
  | Composite _ [] | Decorator _ None => push = true
  | Leaf _ => push = false
  | _ => False
  end.

(** What the stack gains when the node made last is pushed, or is not. *)
Definition pushed (h : list (@Behavior T _)) (push : bool) : list ref :=
  if push then [length h] else [].

(** The states of the builder as a transition system.  One step attaches a
    new childless node to the frame on top (and pushes it when it is a
    parent), pushes a new parent on the empty stack, or ends the composite
    on top.  The flag says whether the step closes a frame. *)
Inductive step : bool → @BehaviorTreeBuilder T _ → @BehaviorTreeBuilder T _ → Prop :=
  | step_attach_composite h ctx cur rest p cls children node push :
      fresh node push →
      h !! p = Some (Composite cls children) →
      step false
        {| heap := h; _context := ctx; _currentNode := cur;
           _parentNodeStack := rest ++ [p] |}
        {| heap := <[p := Composite cls (children ++ [length h])]> (h ++ [node]);
           _context := ctx; _currentNode := cur;
           _parentNodeStack := (rest ++ [p]) ++ pushed h push |}
  | step_attach_decorator h ctx cur rest d cls node push :
      fresh node push →
      h !! d = Some (Decorator cls None) →
      step true
        {| heap := h; _context := ctx; _currentNode := cur;
           _parentNodeStack := rest ++ [d] |}
        {| heap := <[d := Decorator cls (Some (length h))]> (h ++ [node]);
           _context := ctx; _currentNode := Some d;
           _parentNodeStack := rest ++ pushed h push |}
  | step_open_root h ctx cur node :
      fresh node true →
      step false
        {| heap := h; _context := ctx; _currentNode := cur;
           _parentNodeStack := [] |}
        {| heap := h ++ [node]; _context := ctx; _currentNode := cur;
           _parentNodeStack := [length h] |}
  | step_end_composite h ctx cur rest p cls children :
      h !! p = Some (Composite cls children) →
      step true
        {| heap := h; _context := ctx; _currentNode := cur;
           _parentNodeStack := rest ++ [p] |}
        {| heap := h; _context := ctx; _currentNode := Some p;
           _parentNodeStack := rest |}.

(** The reference [a] points to a composite. *)
Definition compositeAt (h : list (@Behavior T _)) (a : ref) : Prop :=
  ∃ cls children, h !! a = Some (Composite cls children).

(** The shape of the parent stack: every frame is a composite, except that
    the top one may be a decorator that has no child yet. *)
Definition stackShape this : Prop :=
  ∀ i a, _parentNodeStack this !! i = Some a →
    (∃ cls children, heap this !! a = Some (Composite cls children)) ∨
    (S i = depth this ∧ ∃ cls, heap this !! a = Some (Decorator cls None)).

(** References that grow from the bottom of a stack to its top. *)
Definition increasing (l : list ref) : Prop :=
  ∀ i j a b, l !! i = Some a → l !! j = Some b → i < j → a < b.

(** The nodes the builder made are those from [base] on.  They sit on the
    stack in the order of their creation, the current node is none of the
    open frames, and a child is younger than its parent. *)
Definition ordered (base : nat) this : Prop :=
  base ≤ length (heap this) ∧
  increasing (_parentNodeStack this) ∧
  (∀ a, a ∈ _parentNodeStack this → base ≤ a < length (heap this)) ∧
  (∀ c, _currentNode this = Some c →
     (base ≤ c < length (heap this)) ∧ c ∉ _parentNodeStack this) ∧
  (∀ x y, base ≤ x → edge (heap this) x y → x < y < length (heap this)).

(** Where the open frames are, seen from the current node: none of them is
    in its tree, or it is a decorator whose child is an open frame. *)
Definition openFramesOutside this : Prop :=
  ∀ c, _currentNode this = Some c →
    (∀ a, a ∈ _parentNodeStack this → ¬ inTree (heap this) c a) ∨
    (∃ cls n, heap this !! c = Some (Decorator cls (Some n)) ∧
              n ∈ _parentNodeStack this).

End Vocabulary.

(** ** Vocabulary of further properties *)

Section MoreVocabulary.

Context {T : Type} `{Externals}.

Implicit Types (this : @BehaviorTreeBuilder T _) (node : @Behavior T _).

(** The fault a call raises in state [this], if it raises one: a leaf-adding
    call on the empty stack, endComposite on anything but a composite. *)
Definition faultOf (c : @Call T _) this : option Fault :=
  match c with
  | call_endComposite =>
      if topIsComposite this then None else Some NotAComposite
  | _ =>
      match leafOf c, _parentNodeStack this with
      | Some _, [] => Some EmptyParentStack
      | _, _ => None
      end
  end.

(** Whether a call opens a parent. *)
Definition opens (c : @Call T _) : bool :=
  match parentOf c with
  | Some _ => true
  | None => false
  end.

(** What an object may become while the builder runs: a leaf stays as it
    is, a decorator keeps its class and, once it has one, its child, and a
    composite keeps its class and its children, in their order, and may gain
    more at the end. *)
Definition grows node node' : Prop :=
  match node, node' with
  | Leaf cls, Leaf cls' => cls = cls'
  | Decorator cls child, Decorator cls' child' =>
      cls = cls' ∧ (child = None ∨ child = child')
  | Composite cls children, Composite cls' children' =>
      cls = cls' ∧ children `prefix_of` children'
  | _, _ => False
  end.

(** A parent object as its constructor leaves it. *)
Definition newNode (cls : @ParentClass T _) : @Behavior T _ :=
  match capability cls with
  | CompositeCapable => Composite cls []
  | DecoratorCapable => Decorator cls None
  end.

(** The nodes from [base] on form a forest: a node is the child of one node
    at most, and is listed once among its children. *)
Definition oneParent (base : nat) this : Prop :=
  (∀ x x' y, base ≤ x → base ≤ x' →
     edge (heap this) x y → edge (heap this) x' y → x = x') ∧
  (∀ x node, base ≤ x → heap this !! x = Some node → NoDup (childrenOf node)).

(** *** Trees and the scripts that build them *)

(** A tree as the caller has it in mind: leaves, decorators over one child
    and composites over children in order. *)
#[local] Unset Elimination Schemes.
Inductive Shape :=
  | leafShape (cls : @LeafClass T)
  | decoratorShape (cls : @ParentClass T _) (child : Shape)
  | compositeShape (cls : @ParentClass T _) (children : list Shape).
#[local] Set Elimination Schemes.

Fixpoint size (t : Shape) : nat :=
  match t with
  | leafShape _ => 1
  | decoratorShape _ child => S (size child)
  | compositeShape _ children => S (list_sum (map size children))
  end.

(** The classes of a tree are used as what they are: decorator classes for
    its decorators, composite classes for its composites. *)
Fixpoint classed (t : Shape) : bool :=
  match t with
  | leafShape _ => true
  | decoratorShape cls child =>
      match capability cls with
      | DecoratorCapable => classed child
      | CompositeCapable => false
      end
  | compositeShape cls children =>
      match capability cls with
      | CompositeCapable => forallb classed children
      | DecoratorCapable => false
      end
  end.

(** The call that adds a leaf of a class, and the call that opens a parent
    of a class. *)
Definition callOfLeaf (cls : @LeafClass T) : @Call T _ :=
  match cls with
  | ExecuteAction func => call_action func
  | ExecuteActionConditional func => call_conditional func
  | LogAction text => call_logAction text
  | WaitAciton waitTime => call_waitAction waitTime
  | BehaviorTreeReference tree => call_subTree tree
  end.

Definition callOfParent (cls : @ParentClass T _) : @Call T _ :=
  match cls with
  | ConditionalDecorator func shouldReevaluate =>
      call_conditionalDecorator func (Some shouldReevaluate)
  | AlwaysFail => call_alwaysFail
  | AlwaysSucceed => call_alwaysSucceed
  | Inverter => call_inverter
  | Repeater count => call_repeater count
  | UntilFail => call_untilFail
  | UntilSuccess => call_untilSuccess
  | Parallel => call_paraller
  | ParallelSelector => call_parallelSelector
  | Selector abortType => call_selector (Some abortType)
  | RandomSelector => call_randomSelector
  | Sequence abortType => call_sequence (Some abortType)
  | RandomSequence => call_randomSequence
  end.

(** The fluent script of a tree: a leaf is one call; a decorator is opened
    and followed by the script of its child; a composite is opened, followed
    by the scripts of its children in order, and ended. *)
Fixpoint script (t : Shape) : list (@Call T _) :=
  match t with
  | leafShape cls => [callOfLeaf cls]
  | decoratorShape cls child => callOfParent cls :: script child
  | compositeShape cls children =>
      callOfParent cls :: concat (map script children) ++ [call_endComposite]
  end.

(** The objects of a tree laid out from reference [a] on, in the order in
    which the script creates them: a node, then its children's trees one
    after the other. *)
Fixpoint roots (a : ref) (children : list Shape) : list ref :=
  match children with
  | [] => []
  | t :: children => a :: roots (a + size t) children
  end.

Fixpoint layout (a : ref) (t : Shape) : list (@Behavior T _) :=
  match t with
  | leafShape cls => [Leaf cls]
  | decoratorShape cls child => Decorator cls (Some (S a)) :: layout (S a) child
  | compositeShape cls children =>
      Composite cls (roots (S a) children) ::
      (fix layouts (a : ref) (children : list Shape) : list (@Behavior T _) :=
         match children with
         | [] => []
         | t :: children => layout a t ++ layouts (a + size t) children
         end) (S a) children
  end.

Fixpoint layouts (a : ref) (children : list Shape) : list (@Behavior T _) :=
  match children with
  | [] => []
  | t :: children => layout a t ++ layouts (a + size t) children
  end.

(** Reading the tree below a reference off the heap; [fuel] bounds the
    depth. *)
Fixpoint readTree (fuel : nat) (h : list (@Behavior T _)) (a : ref) : option Shape :=
  match fuel with
  | 0 => None
  | S fuel =>
      match h !! a with
      | Some (Leaf cls) => Some (leafShape cls)
      | Some (Decorator cls (Some child)) =>
          decoratorShape cls <$> readTree fuel h child
      | Some (Composite cls children) =>
          compositeShape cls <$> mapM (readTree fuel h) children
      | _ => None
      end
  end.

(** A frame that has received the node [n]: its last child if it is a
    composite, its child if it is a decorator. *)
Definition attachTo (top : @Behavior T _) (n : ref) : @Behavior T _ :=
  match top with
  | Composite cls children => Composite cls (children ++ [n])
  | Decorator cls _ => Decorator cls (Some n)
  | Leaf cls => Leaf cls
  end.

(** What is left of the frame [p] on the stack once it has received a node,
    and the current node then. *)
Definition kept (top : @Behavior T _) (p : ref) : list ref :=
  match top with
  | Decorator _ _ => []
  | _ => [p]
  end.

Definition currentAfterAttach (top : @Behavior T _) (cur : option ref) (p : ref) :
    option ref :=
  match top with
  | Decorator _ _ => Some p
  | _ => cur
  end.

(** The current node after the script of [t], whose root is created at [n],
    has run on the frame [p]. *)
Fixpoint closedBy (top : @Behavior T _) (cur : option ref) (p n : ref) (t : Shape) :
    option ref :=
  match t with
  | leafShape _ => currentAfterAttach top cur p
  | decoratorShape cls child =>
      closedBy (Decorator cls None) (currentAfterAttach top cur p) n (S n) child
  | compositeShape _ _ => Some n
  end.

(** What build returns for the script of [t] run on a new builder: the part
    of [t] below the frame closed last, and the reference of its root when
    the root of [t] is created at [n].  Decorators that wrap a decorator or a
    composite are closed before what they wrap. *)
Fixpoint builtShape (t : Shape) : Shape :=
  match t with
  | decoratorShape cls child =>
      match child with
      | leafShape _ => t
      | _ => builtShape child
      end
  | _ => t
  end.

Fixpoint builtRoot (n : ref) (t : Shape) : ref :=
  match t with
  | decoratorShape cls child =>
      match child with
      | leafShape _ => n
      | _ => builtRoot (S n) child
      end
  | _ => n
  end.

End MoreVocabulary.

(** ** Running the methods *)

Ltac eff :=
  repeat (unfold mbind, mret, Eff_bind, Eff_ret, gets, modify, throw,
            Assert.isFalse, Assert.isTrue, Assert.isNotNull,
            ArrayExt.peek, ArrayExt.pop, ArrayExt.push,
            endDecorator, popIntoCurrentNode, addChild; cbn).

Ltac on_top := rewrite ?last_snoc, ?removelast_last, ?length_app; cbn.

Section Methods.

Context {T : Type} `{Externals}.

Implicit Types (this : @BehaviorTreeBuilder T _) (node : @Behavior T _).
Implicit Types (c : @Call T _) (calls : list (@Call T _)).

Lemma setChildOnParent_empty this child :
  _parentNodeStack this = [] →
  setChildOnParent child this = (Normal tt, this).
Proof.
  destruct this as [h ctx cur st]; cbn. intros ->.
  unfold setChildOnParent. eff. reflexivity.
Qed.

Lemma setChildOnParent_composite this rest p cls children child :
  _parentNodeStack this = rest ++ [p] →
  heap this !! p = Some (Composite cls children) →
  setChildOnParent child this =
    (Normal tt,
     {| heap := <[p := Composite cls (children ++ [child])]> (heap this);
        _context := _context this; _currentNode := _currentNode this;
        _parentNodeStack := rest ++ [p] |}).
Proof.
  destruct this as [h ctx cur st]; cbn. intros -> Hp.
  unfold setChildOnParent. eff. on_top. eff. rewrite Hp. eff. reflexivity.
Qed.

Lemma setChildOnParent_decorator this rest d cls child0 child :
  _parentNodeStack this = rest ++ [d] →
  heap this !! d = Some (Decorator cls child0) →
  setChildOnParent child this =
    (Normal tt,
     {| heap := <[d := Decorator cls (Some child)]> (heap this);
        _context := _context this; _currentNode := Some d;
        _parentNodeStack := rest |}).
Proof.
  destruct this as [h ctx cur st]; cbn. intros -> Hd.
  unfold setChildOnParent. eff. on_top. eff. rewrite Hd. eff. on_top.
  reflexivity.
Qed.

Lemma setChildOnParent_normal this child :
  (setChildOnParent child this).1 = Normal tt.
Proof.
  unfold setChildOnParent. eff.
  destruct (last (_parentNodeStack this)) as [p|]; eff; [|done].
  by destruct (heap this !! p) as [[| |]|]; eff.
Qed.

Lemma pushParentNode_eq this composite :
  pushParentNode composite this =
    (Normal tt,
     let this' :=
       match _parentNodeStack this with
       | [] => this
       | _ => after (setChildOnParent composite) this
       end in
     set_parentNodeStack (_parentNodeStack this' ++ [composite]) this').
Proof.
  unfold pushParentNode, after. eff.
  destruct (_parentNodeStack this) as [|a st] eqn:Hst; cbn.
  - reflexivity.
  - destruct (setChildOnParent composite this) as [[[]|e] this'] eqn:Hset;
      [reflexivity|].
    exfalso. revert Hset. unfold setChildOnParent. eff.
    destruct (last (_parentNodeStack this)) as [p|]; eff; [|discriminate].
    destruct (heap this !! p) as [[| |]|]; eff; discriminate.
Qed.

Lemma pushParentNode_nonempty this composite :
  _parentNodeStack this ≠ [] →
  pushParentNode composite this =
    (Normal tt,
     let this' := after (setChildOnParent composite) this in
     set_parentNodeStack (_parentNodeStack this' ++ [composite]) this').
Proof.
  intros Hst. rewrite pushParentNode_eq. by destruct (_parentNodeStack this).
Qed.

Lemma endComposite_decorator this rest top cls child :
  _parentNodeStack this = rest ++ [top] →
  heap this !! top = Some (Decorator cls child) →
  endComposite this = (Throw NotAComposite, this).
Proof.
  destruct this as [h ctx cur st]; cbn. intros -> Htop.
  unfold endComposite, topIsComposite. eff. on_top. by rewrite Htop.
Qed.

Lemma endComposite_composite this rest top cls children :
  _parentNodeStack this = rest ++ [top] →
  heap this !! top = Some (Composite cls children) →
  endComposite this =
    (Normal tt,
     {| heap := heap this; _context := _context this;
        _currentNode := Some top; _parentNodeStack := rest |}).
Proof.
  destruct this as [h ctx cur st]; cbn. intros -> Htop.
  unfold endComposite, topIsComposite. eff. on_top. rewrite Htop. eff.
  by on_top.
Qed.

Lemma addLeaf_empty this cls :
  _parentNodeStack this = [] →
  addLeaf cls this = (Throw EmptyParentStack, this).
Proof. intros Hst. unfold addLeaf. eff. rewrite Hst. reflexivity. Qed.

Lemma addLeaf_nonempty this cls :
  _parentNodeStack this ≠ [] →
  addLeaf cls this =
    setChildOnParent (length (heap this)) (set_heap (λ h, h ++ [Leaf cls]) this).
Proof.
  intros Hst. unfold addLeaf. eff.
  destruct (_parentNodeStack this); [done|]. cbn. unfold new. eff.
  by destruct (setChildOnParent _ _) as [[[]|] ?].
Qed.

Lemma call_leaf c cls : leafOf c = Some cls → call c = addLeaf cls.
Proof. destruct c; cbn; intros [= <-]; reflexivity. Qed.

Lemma call_parent c cls : parentOf c = Some cls → call c = openParent cls.
Proof. destruct c; cbn; intros [= <-]; reflexivity. Qed.

Lemma call_cases c :
  (∃ cls, leafOf c = Some cls) ∨ (∃ cls, parentOf c = Some cls) ∨
  c = call_endComposite.
Proof. destruct c; cbn; eauto. Qed.

Lemma chain_app calls1 calls2 this this1 :
  chain calls1 this = (Normal tt, this1) →
  chain (calls1 ++ calls2) this = chain calls2 this1.
Proof.
  revert this. induction calls1 as [|c calls1 IH]; intros this; cbn.
  - unfold mret, Eff_ret. by intros [= ->].
  - unfold mbind, Eff_bind.
    destruct (call c this) as [[[]|e] this']; [|discriminate].
    apply IH.
Qed.

End Methods.

(** ** The AlwaysFail decorator *)

Section AlwaysFailProperties.

Context {T W B : Type} `{!AlwaysFail.Behavior (T:=T) (W:=W) B}.

(** C2: whatever the context, when the child's update returns a status,
    the update of the AlwaysFail decorator returns Running if that status
    is Running and Failure if it is Success or Failure; the state is the one
    the child left. *)
Theorem AlwaysFail_update_status (child : B) (context : T) (w w' : W)
    (status : TaskStatus) :
  AlwaysFail.update child context w = (Normal status, w') →
  let decorator := AlwaysFail.Build_AlwaysFail (Some child) in
  (status = Running →
     AlwaysFail.AlwaysFail_update decorator context w = (Normal Running, w')) ∧
  (status = Success →
     AlwaysFail.AlwaysFail_update decorator context w = (Normal Failure, w')) ∧
  (status = Failure →
     AlwaysFail.AlwaysFail_update decorator context w = (Normal Failure, w')).
Proof.
  intros Hchild decorator.
  assert (Hrun : AlwaysFail.AlwaysFail_update decorator context w =
            (Normal (if decide (status = Running) then Running else Failure), w')).
  { unfold AlwaysFail.AlwaysFail_update. eff.
    rewrite Hchild. by destruct (decide (status = Running)). }
  rewrite Hrun. by repeat split; intros ->.
Qed.

End AlwaysFailProperties.

(** The decorator over a child that reports Success without touching the
    state. *)
Lemma AlwaysFail_update_status_witness :
  AlwaysFail.AlwaysFail_update (Behavior0 := statelessChild)
      (AlwaysFail.Build_AlwaysFail (Some (λ _ : unit, Success))) tt tt =
    (Normal Failure, tt).
Proof.
  exact (proj1 (proj2 (AlwaysFail_update_status (H := statelessChild)
           (λ _ : unit, Success) tt tt tt Success eq_refl)) eq_refl).
Defined.

(** ** Preconditions of the builder's methods *)

Section Preconditions.

Context {T : Type} `{Externals}.

Implicit Types (this : @BehaviorTreeBuilder T _) (node : @Behavior T _).
Implicit Types (c : @Call T _) (calls : list (@Call T _)).

(** C3: a leaf-adding call (action, actionR, conditional, conditionalR,
    logAction, waitAction, subTree) made while the parent stack is empty
    throws EmptyParentStack and leaves the builder as it was: no node is
    created and none is attached.  This holds wherever in a chain of calls
    the leaf call comes. *)
Theorem leaf_on_empty_stack_throws this c :
  is_Some (leafOf c) →
  _parentNodeStack this = [] →
  call c this = (Throw EmptyParentStack, this) ∧
  ∀ calls this0 more,
    chain calls this0 = (Normal tt, this) →
    chain (calls ++ c :: more) this0 = (Throw EmptyParentStack, this).
Proof.
  intros [cls Hc] Hst.
  assert (Hthrow : call c this = (Throw EmptyParentStack, this)).
  { rewrite (call_leaf _ _ Hc). by apply addLeaf_empty. }
  split; [done|]. intros calls this0 more Hrun.
  rewrite (chain_app _ _ _ _ Hrun). cbn. unfold mbind, Eff_bind.
  by rewrite Hthrow.
Qed.

(** C4: with a decorator on top of the parent stack endComposite throws
    NotAComposite and changes nothing; with a composite on top it pops the
    composite and records it as the current node. *)
Theorem endComposite_on_top this rest top :
  _parentNodeStack this = rest ++ [top] →
  (∀ cls child, heap this !! top = Some (Decorator cls child) →
     endComposite this = (Throw NotAComposite, this)) ∧
  (∀ cls children, heap this !! top = Some (Composite cls children) →
     endComposite this =
       (Normal tt,
        {| heap := heap this; _context := _context this;
           _currentNode := Some top; _parentNodeStack := rest |})).
Proof.
  intros Hst. split; intros cls x Htop.
  - by eapply endComposite_decorator.
  - by eapply endComposite_composite.
Qed.

(** C10: actionR on a boolean function is action on the function that
    gives Success for true and Failure for false, and conditionalR is
    conditional on it: in every state of the builder the two calls
    complete alike (the same fault, if any) and leave the same builder, with
    the same node attached. *)
Theorem actionR_conditionalR_map (func : T → bool) this :
  actionR func this = action (successWhenTrue func) this ∧
  conditionalR func this = conditional (successWhenTrue func) this ∧
  ∀ t, successWhenTrue func t = (if func t then Success else Failure) ∧
       (successWhenTrue func t = Success ↔ func t = true) ∧
       (successWhenTrue func t = Failure ↔ func t = false).
Proof.
  split_and!; [reflexivity..|].
  intros t. unfold successWhenTrue. by destruct (func t).
Qed.

End Preconditions.

Lemma leaf_on_empty_stack_throws_witness :
  call (H := sampleExternals) (call_action (λ _ : unit, Success)) (begin [] tt) =
    (Throw EmptyParentStack, begin [] tt).
Proof.
  exact (proj1 (leaf_on_empty_stack_throws (H := sampleExternals)
           (begin [] tt) (call_action (λ _ : unit, Success))
           (ex_intro _ _ eq_refl) eq_refl)).
Defined.

Lemma endComposite_on_top_witness :
  endComposite (after (H := sampleExternals) (T := unit) alwaysFail (begin [] tt)) =
    (Throw NotAComposite, after (H := sampleExternals) alwaysFail (begin [] tt)).
Proof.
  exact (proj1 (endComposite_on_top (H := sampleExternals) (T := unit)
           (after alwaysFail (begin [] tt)) [] 0 eq_refl)
           AlwaysFail None eq_refl).
Defined.

(** ** The builder as a transition system *)

Section Steps.

Context {T : Type} `{Externals}.

Implicit Types (this : @BehaviorTreeBuilder T _) (node : @Behavior T _).
Implicit Types (c : @Call T _) (calls : list (@Call T _)).

Lemma stackShape_top this rest p :
  stackShape this → _parentNodeStack this = rest ++ [p] →
  (∃ cls children, heap this !! p = Some (Composite cls children)) ∨
  (∃ cls, heap this !! p = Some (Decorator cls None)).
Proof.
  intros Hshape Hst. destruct (Hshape (length rest) p) as [?|[_ ?]]; auto.
  rewrite Hst. by apply list_lookup_middle.
Qed.

Lemma stackShape_below this rest p a :
  stackShape this → _parentNodeStack this = rest ++ [p] → a ∈ rest →
  ∃ cls children, heap this !! a = Some (Composite cls children).
Proof.
  intros Hshape Hst [i Hi]%list_elem_of_lookup.
  destruct (Hshape i a) as [?|[Htop _]]; auto.
  - rewrite Hst. by apply lookup_app_l_Some.
  - apply lookup_lt_Some in Hi. unfold depth in Htop.
    rewrite Hst, length_app in Htop. cbn in Htop. lia.
Qed.

Lemma topFrame_snoc this rest p :
  _parentNodeStack this = rest ++ [p] → topFrame this = heap this !! p.
Proof. intros Hst. unfold topFrame, ArrayExt.peek. by rewrite Hst, last_snoc. Qed.

Lemma topFrame_nil this : _parentNodeStack this = [] → topFrame this = None.
Proof. intros Hst. unfold topFrame, ArrayExt.peek. by rewrite Hst. Qed.

Lemma topIsComposite_topFrame this :
  topIsComposite this = match topFrame this with
                        | Some (Composite _ _) => true
                        | _ => false
                        end.
Proof. reflexivity. Qed.

Lemma fresh_newParent this cls :
  ∃ node, fresh node true ∧
    newParent cls this = (Normal (length (heap this)), set_heap (λ h, h ++ [node]) this).
Proof.
  unfold newParent. destruct (capability cls).
  - by exists (Composite cls []).
  - by exists (Decorator cls None).
Qed.

(** What a new node is attached to, as a step. *)
Lemma attach_step this node push :
  stackShape this → fresh node push → _parentNodeStack this ≠ [] →
  let this1 := after (setChildOnParent (length (heap this)))
                 (set_heap (λ h, h ++ [node]) this) in
  step (topIsDecorator this) this
    (set_parentNodeStack (_parentNodeStack this1 ++ pushed (heap this) push) this1).
Proof.
  intros Hshape Hfresh Hne.
  destruct (_parentNodeStack this) as [|a st] eqn:Hst using rev_ind; [done|].
  clear IHst Hne. unfold topIsDecorator. rewrite (topFrame_snoc _ _ _ Hst).
  destruct (stackShape_top _ _ _ Hshape Hst) as [(cls & cs & Ha)|(cls & Ha)];
    rewrite Ha; destruct this as [h ctx cur stack]; cbn in *; subst stack;
    pose proof (lookup_lt_Some _ _ _ Ha) as Hlt.
  - unfold after.
    erewrite setChildOnParent_composite; [|reflexivity|]; cbn;
      [|by rewrite lookup_app_l].
    by constructor.
  - unfold after.
    erewrite setChildOnParent_decorator; [|reflexivity|]; cbn;
      [|by rewrite lookup_app_l].
    by constructor.
Qed.

(** Every call either throws, leaving the builder as it was, or makes a
    step, closing a frame exactly when [closes] says so. *)
Lemma call_step c this r this' :
  stackShape this → call c this = (r, this') →
  ((∃ e, r = Throw e) ∧ this' = this ∧ closes c this = false) ∨
  (r = Normal tt ∧ step (closes c this) this this').
Proof.
  intros Hshape Hcall.
  destruct (call_cases c) as [[cls Hc]|[[cls Hc]| ->]].
  - rewrite (call_leaf _ _ Hc) in Hcall.
    assert (closes c this = topIsDecorator this) as -> by by destruct c.
    destruct (decide (_parentNodeStack this = [])) as [Hst|Hst].
    + rewrite addLeaf_empty in Hcall by done. injection Hcall as <- <-.
      left. split_and!; eauto. unfold topIsDecorator.
      by rewrite topFrame_nil.
    + rewrite addLeaf_nonempty in Hcall by done. right.
      pose proof (attach_step this (Leaf cls) false Hshape eq_refl Hst) as Hstep.
      pose proof (setChildOnParent_normal
                    (set_heap (λ h, h ++ [Leaf cls]) this) (length (heap this))) as Hr.
      cbn in Hstep. unfold after in Hstep. rewrite Hcall in *. cbn in *.
      rewrite app_nil_r in Hstep. split; [done|]. by destruct this'.
  - rewrite (call_parent _ _ Hc) in Hcall.
    assert (closes c this = topIsDecorator this) as -> by by destruct c.
    right. unfold openParent in Hcall. revert Hcall. eff.
  destruct (fresh_newParent this cls) as (node & Hfresh & ->).
  rewrite pushParentNode_eq. intros [= <- <-]. split; [done|].
  destruct (decide (_parentNodeStack this = [])) as [Hst|Hst].
  + unfold topIsDecorator. rewrite topFrame_nil by done.
    destruct this as [h ctx cur stack]; cbn in *; subst stack.
    by constructor.
  + pose proof (attach_step this node true Hshape Hfresh Hst) as Hstep.
    cbn in *. by destruct (_parentNodeStack this).
- cbn in *. revert Hcall. unfold endComposite. eff.
    destruct (topIsComposite this) eqn:Htop; eff; intros [= <- <-].
    + right. split; [done|].
      destruct (_parentNodeStack this) as [|a st] eqn:Hst using rev_ind.
      { by rewrite topIsComposite_topFrame, topFrame_nil in Htop. }
      rewrite topIsComposite_topFrame, (topFrame_snoc _ _ _ Hst) in Htop.
      destruct (heap this !! a) as [[k cs| |]|] eqn:Ha; try done.
      on_top. destruct this as [h ctx cur stack]; cbn in *; subst stack.
      by econstructor.
    + left. eauto.
Qed.

End Steps.

(** ** The shape of the parent stack is kept *)

Section StackShape.

Context {T : Type} `{Externals}.

Implicit Types (this : @BehaviorTreeBuilder T _) (node : @Behavior T _).
Implicit Types (c : @Call T _) (calls : list (@Call T _)).
Implicit Types (h : list (@Behavior T _)).

Lemma stackShape_composites h ctx cur st :
  Forall (compositeAt h) st →
  stackShape {| heap := h; _context := ctx; _currentNode := cur;
                _parentNodeStack := st |}.
Proof.
  intros Hall i a Hi. left. cbn in *.
  by apply (Forall_lookup_1 _ _ _ _ Hall Hi).
Qed.

Lemma stackShape_snoc h ctx cur st t :
  Forall (compositeAt h) st →
  compositeAt h t ∨ (∃ cls, h !! t = Some (Decorator cls None)) →
  stackShape {| heap := h; _context := ctx; _currentNode := cur;
                _parentNodeStack := st ++ [t] |}.
Proof.
  intros Hall Htop i a Hi. cbn in *. unfold depth; cbn.
  apply lookup_app_Some in Hi as [Hi|[Hge Hi]].
  - left. by apply (Forall_lookup_1 _ _ _ _ Hall Hi).
  - apply list_lookup_singleton_Some in Hi as [Hi <-].
    destruct Htop as [?|?]; [by left|right].
    split; [|done]. rewrite length_app. cbn. lia.
Qed.

Lemma stackShape_lower h ctx cur st t :
  stackShape {| heap := h; _context := ctx; _currentNode := cur;
                _parentNodeStack := st ++ [t] |} →
  Forall (compositeAt h) st.
Proof.
  intros Hshape. apply Forall_forall. intros a Ha.
  by apply (stackShape_below _ st t a Hshape).
Qed.

Lemma compositeAt_attach h p node k a :
  p < length h → (∃ cls children, k = Composite cls children) ∨ a ≠ p →
  compositeAt h a → compositeAt (<[p := k]> (h ++ [node])) a.
Proof.
  intros Hp Hk (cls & cs & Ha). unfold compositeAt.
  destruct (decide (a = p)) as [->|Hne].
  - destruct Hk as [(cls' & cs' & ->)|?]; [|done].
    rewrite list_lookup_insert_eq; [eauto|]. rewrite length_app. lia.
  - rewrite list_lookup_insert_ne by done.
    rewrite lookup_app_l; [eauto|]. by eapply lookup_lt_Some.
Qed.

Lemma fresh_at_end h p k node :
  p < length h → fresh node true →
  let h' := <[p := k]> (h ++ [node]) in
  compositeAt h' (length h) ∨ (∃ cls, h' !! length h = Some (Decorator cls None)).
Proof.
  intros Hp Hfresh h'.
  assert (Hnew : h' !! length h = Some node).
  { subst h'. rewrite list_lookup_insert_ne by lia.
    by rewrite list_lookup_middle. }
  unfold compositeAt. rewrite Hnew.
  destruct node as [cls [|]|cls [|]|]; try done; eauto.
Qed.

Lemma step_stackShape closed this this' :
  stackShape this → step closed this this' → stackShape this'.
Proof.
  intros Hshape Hstep.
  destruct Hstep as [h ctx cur rest p cls cs node push Hfresh Hp
                    |h ctx cur rest d cls node push Hfresh Hd
                    |h ctx cur node Hfresh
                    |h ctx cur rest p cls cs Hp].
  - pose proof (lookup_lt_Some _ _ _ Hp) as Hlt.
    pose proof (stackShape_lower _ _ _ _ _ Hshape) as Hlow.
    assert (Hall : Forall (compositeAt
              (<[p := Composite cls (cs ++ [length h])]> (h ++ [node]))) (rest ++ [p])).
    { apply Forall_app. split.
      - eapply Forall_impl; [exact Hlow|]. intros a Ha.
        apply compositeAt_attach; eauto.
      - apply Forall_singleton. apply compositeAt_attach; eauto.
        by exists cls, cs. }
    destruct push; cbn.
    + apply stackShape_snoc; [done|]. by apply fresh_at_end.
    + rewrite app_nil_r. by apply stackShape_composites.
  - pose proof (lookup_lt_Some _ _ _ Hd) as Hlt.
    pose proof (stackShape_lower _ _ _ _ _ Hshape) as Hlow.
    assert (Hall : Forall (compositeAt
              (<[d := Decorator cls (Some (length h))]> (h ++ [node]))) rest).
    { eapply Forall_impl; [exact Hlow|]. intros a Ha.
      apply compositeAt_attach; [done| |done]. right.
      intros ->. destruct Ha as (? & ? & Ha). congruence. }
    destruct push; cbn.
    + apply stackShape_snoc; [done|]. by apply fresh_at_end.
    + rewrite app_nil_r. by apply stackShape_composites.
  - apply (stackShape_snoc _ _ _ []); [done|]. unfold compositeAt.
    rewrite list_lookup_middle by done.
    destruct node as [k [|]|k [|]|]; try done; eauto.
  - apply stackShape_composites. by apply (stackShape_lower _ _ _ _ _ Hshape).
Qed.

Lemma begin_stackShape (objects : list (@Behavior T _)) (context : T) :
  stackShape (begin objects context).
Proof. intros i a Hi. by cbn in Hi. Qed.

(** A property that holds where a chain starts and is kept by every step
    holds where the chain ends or throws. *)
Lemma chain_invariant (P : @BehaviorTreeBuilder T _ → Prop) :
  (∀ closed this this', stackShape this → P this → step closed this this' → P this') →
  ∀ calls this r this',
    stackShape this → P this → chain calls this = (r, this') →
    stackShape this' ∧ P this'.
Proof.
  intros Hkeep calls. induction calls as [|c calls IH]; intros this r this' Hshape HP.
  - cbn. unfold mret, Eff_ret. by intros [= <- <-].
  - cbn. unfold mbind, Eff_bind.
    destruct (call c this) as [r1 this1] eqn:Hcall.
    destruct (call_step _ _ _ _ Hshape Hcall) as [([e ->] & -> & _)|[-> Hstep]].
    + by intros [= <- <-].
    + apply IH; [by eapply step_stackShape|by eapply Hkeep].
Qed.

End StackShape.

(** ** Decorators close themselves, composites stay open *)

Section Closing.

Context {T : Type} `{Externals}.

Implicit Types (this : @BehaviorTreeBuilder T _) (node : @Behavior T _).
Implicit Types (c : @Call T _) (calls : list (@Call T _)).
Implicit Types (h : list (@Behavior T _)).

Lemma setChildOnParent_leaf this rest p cls child :
  _parentNodeStack this = rest ++ [p] →
  heap this !! p = Some (Leaf cls) →
  setChildOnParent child this = (Normal tt, this).
Proof.
  destruct this as [h ctx cur st]; cbn. intros -> Hp.
  unfold setChildOnParent. eff. on_top. eff. rewrite Hp. eff. reflexivity.
Qed.

(** Opening a decorator: the new decorator is on top, childless, and the
    stack is as deep as before when a decorator was on top (it is closed),
    one deeper otherwise. *)
Lemma openParent_decorator this cls :
  capability cls = DecoratorCapable →
  (∀ top, ArrayExt.peek (_parentNodeStack this) = Some top →
          top < length (heap this)) →
  let d := length (heap this) in
  let this1 := after (openParent cls) this in
  completion (openParent cls) this = Normal tt ∧
  (∃ lower, _parentNodeStack this1 = lower ++ [d] ∧
     length lower = if topIsDecorator this then depth this - 1 else depth this) ∧
  heap this1 !! d = Some (Decorator cls None).
Proof.
  intros Hcls Halloc d this1. subst this1 d.
  unfold completion, after, openParent.
  eff. unfold newParent. rewrite Hcls. unfold new. eff.
  unfold topIsDecorator, topFrame, depth.
  destruct this as [h ctx cur st]. unfold ArrayExt.peek in *. cbn in *.
  destruct st as [|p rest _] using rev_ind.
  { rewrite pushParentNode_eq. cbn.
    split_and!; [done|by exists []|by apply list_lookup_middle]. }
  rewrite pushParentNode_nonempty by (cbn; by destruct rest).
  split; [done|]. rewrite last_snoc. cbn.
  assert (Hp : p < length h) by (apply Halloc; by rewrite last_snoc).
  destruct (lookup_lt_is_Some_2 _ _ Hp) as [k Hk]. rewrite Hk.
  assert (Hk' : (h ++ [Decorator cls None]) !! p = Some k)
    by by rewrite lookup_app_l.
  assert (Hnew : ∀ k', <[p := k']> (h ++ [Decorator cls None]) !! length h
                       = Some (Decorator cls None)).
  { intros k'. rewrite list_lookup_insert_ne by lia.
    by apply list_lookup_middle. }
  unfold after. rewrite length_app. cbn.
  destruct k as [k cs|k ch|k].
  - erewrite setChildOnParent_composite; [|done|done].
    cbn. split; [|done]. exists (rest ++ [p]). rewrite length_app. cbn.
    split; [done|lia].
  - erewrite setChildOnParent_decorator; [|done|done].
    cbn. split; [|done]. exists rest. split; [done|lia].
  - erewrite setChildOnParent_leaf; [|done|done].
    cbn. split.
    + exists (rest ++ [p]). rewrite length_app. cbn. split; [done|lia].
    + by apply list_lookup_middle.
Qed.

(** C1, amended: with a decorator just opened, attaching one child makes it
    the decorator's child, pops the decorator and records it as the current
    node.  The stack is then one frame shallower than with the decorator on
    top.  That is the depth from before the opening when no decorator was on
    top then; when one was, the opening closed it, and the stack ends one
    frame shallower than before the opening. *)
Theorem decorator_closes_on_child this cls child :
  capability cls = DecoratorCapable →
  (∀ top, ArrayExt.peek (_parentNodeStack this) = Some top →
          top < length (heap this)) →
  let d := length (heap this) in
  let this1 := after (openParent cls) this in
  let this2 := after (setChildOnParent child) this1 in
  (ArrayExt.peek (_parentNodeStack this1) = Some d ∧
   heap this1 !! d = Some (Decorator cls None)) ∧
  completion (setChildOnParent child) this1 = Normal tt ∧
  heap this2 = <[d := Decorator cls (Some child)]> (heap this1) ∧
  heap this2 !! d = Some (Decorator cls (Some child)) ∧
  _currentNode this2 = Some d ∧
  _parentNodeStack this2 = removelast (_parentNodeStack this1) ∧
  depth this2 + 1 = depth this1 ∧
  (topIsDecorator this = false → depth this2 = depth this) ∧
  (topIsDecorator this = true → depth this2 + 1 = depth this).
Proof.
  intros Hcls Halloc d this1 this2.
  destruct (openParent_decorator this cls Hcls Halloc)
    as (_ & (lower & Hst1 & Hlen) & Hd).
  fold d this1 in Hst1, Hd.
  pose proof (setChildOnParent_decorator this1 lower d cls None child Hst1 Hd) as Hset.
  subst this2. unfold completion, after, depth. rewrite Hset, Hst1. cbn.
  unfold ArrayExt.peek. on_top. split_and!; try done.
  - apply list_lookup_insert_eq. by eapply lookup_lt_Some.
  - intros Htop. by rewrite Htop in Hlen.
  - intros Htop. rewrite Htop in Hlen. unfold depth in Hlen.
    assert (length (_parentNodeStack this) ≠ 0); [|lia].
    unfold topIsDecorator in Htop.
    destruct (_parentNodeStack this) eqn:Hst; [|done].
    by rewrite topFrame_nil in Htop.
Qed.

Lemma attachAll_composite nodes : ∀ this rest p cls children,
  _parentNodeStack this = rest ++ [p] →
  heap this !! p = Some (Composite cls children) →
  attachAll nodes this =
    (Normal tt,
     {| heap := <[p := Composite cls (children ++ nodes)]> (heap this);
        _context := _context this; _currentNode := _currentNode this;
        _parentNodeStack := rest ++ [p] |}).
Proof.
  induction nodes as [|n nodes IH]; intros this rest p cls children Hst Hp.
  - cbn. rewrite app_nil_r, list_insert_id by done.
    destruct this; cbn in *. by subst.
  - cbn. unfold mbind, Eff_bind.
    rewrite (setChildOnParent_composite _ _ _ _ _ _ Hst Hp).
    rewrite (IH _ rest p cls (children ++ [n])); cbn.
    + by rewrite list_insert_insert_eq, <- app_assoc.
    + done.
    + apply list_lookup_insert_eq. by eapply lookup_lt_Some.
Qed.

Lemma chain_leaves_composite leaves : ∀ this rest p cls children,
  Forall (λ c, is_Some (leafOf c)) leaves →
  _parentNodeStack this = rest ++ [p] →
  heap this !! p = Some (Composite cls children) →
  chain leaves this =
    (Normal tt,
     {| heap := <[p := Composite cls
                        (children ++ seq (length (heap this)) (length leaves))]>
                  (heap this ++ (Leaf <$> omap leafOf leaves));
        _context := _context this; _currentNode := _currentNode this;
        _parentNodeStack := rest ++ [p] |}).
Proof.
  induction leaves as [|c leaves IH]; intros this rest p cls children Hall Hst Hp.
  - cbn. rewrite !app_nil_r, list_insert_id by done.
    destruct this; cbn in *. by subst.
  - apply Forall_cons in Hall as [[lc Hc] Hall].
    pose proof (lookup_lt_Some _ _ _ Hp) as Hlt.
    cbn. unfold mbind, Eff_bind. rewrite (call_leaf _ _ Hc).
    rewrite addLeaf_nonempty by (rewrite Hst; by destruct rest).
    erewrite setChildOnParent_composite; [|exact Hst|cbn; by rewrite lookup_app_l].
    rewrite (IH _ rest p cls (children ++ [length (heap this)])); cbn;
      [|done|done|].
    + rewrite Hc. cbn. rewrite length_insert, length_app. cbn.
      rewrite Nat.add_1_r, <- app_assoc. cbn.
      rewrite <- (insert_app_l _ _ _ _) by (rewrite length_app; lia).
      by rewrite list_insert_insert_eq, <- app_assoc.
    + apply list_lookup_insert_eq. rewrite length_app. lia.
Qed.

(** C7: with a composite on top, each attach appends the child to the
    composite's children, in the order of the attaches, and leaves the stack
    as it is, the composite on top; endComposite then pops it, and the stack
    is one frame shallower.  This holds for the attach algorithm run on any
    nodes, and for any run of leaf-adding calls, whose leaves are the objects
    created in turn. *)
Theorem composite_stays_open this rest p cls children :
  _parentNodeStack this = rest ++ [p] →
  heap this !! p = Some (Composite cls children) →
  (∀ nodes,
     let this' := after (attachAll nodes) this in
     completion (attachAll nodes) this = Normal tt ∧
     _parentNodeStack this' = rest ++ [p] ∧
     depth this' = depth this ∧
     heap this' !! p = Some (Composite cls (children ++ nodes)) ∧
     endComposite this' =
       (Normal tt,
        {| heap := heap this'; _context := _context this;
           _currentNode := Some p; _parentNodeStack := rest |}) ∧
     depth (after endComposite this') + 1 = depth this') ∧
  (∀ leaves,
     Forall (λ c, is_Some (leafOf c)) leaves →
     let this' := after (chain leaves) this in
     completion (chain leaves) this = Normal tt ∧
     _parentNodeStack this' = rest ++ [p] ∧
     depth this' = depth this ∧
     heap this' =
       <[p := Composite cls (children ++ seq (length (heap this)) (length leaves))]>
         (heap this ++ (Leaf <$> omap leafOf leaves)) ∧
     endComposite this' =
       (Normal tt,
        {| heap := heap this'; _context := _context this;
           _currentNode := Some p; _parentNodeStack := rest |}) ∧
     depth (after endComposite this') + 1 = depth this').
Proof.
  intros Hst Hp. pose proof (lookup_lt_Some _ _ _ Hp) as Hlt. split.
  - intros nodes this'. subst this'. unfold completion, after, depth.
    rewrite (attachAll_composite nodes _ _ _ _ _ Hst Hp), Hst. cbn.
    assert (Hp' : <[p := Composite cls (children ++ nodes)]> (heap this) !! p
                  = Some (Composite cls (children ++ nodes)))
      by by apply list_lookup_insert_eq.
    split_and!; try done.
    + by erewrite endComposite_composite.
    + erewrite endComposite_composite; [|done..].
      cbn. by rewrite length_app.
  - intros leaves Hall this'. subst this'. unfold completion, after, depth.
    rewrite (chain_leaves_composite leaves _ _ _ _ _ Hall Hst Hp), Hst. cbn.
    match goal with |- context [<[p := ?k]> ?h] =>
      assert (Hp' : <[p := k]> h !! p = Some k)
        by (apply list_lookup_insert_eq; rewrite length_app; lia)
    end.
    split_and!; try done.
    + by erewrite endComposite_composite.
    + erewrite endComposite_composite; [|done..].
      cbn. by rewrite length_app.
Qed.

End Closing.

(** ** Opening a parent on a decorator *)

Section OpenOnDecorator.

Context {T : Type} `{Externals}.

Implicit Types (this : @BehaviorTreeBuilder T _) (node : @Behavior T _).
Implicit Types (c : @Call T _) (calls : list (@Call T _)).
Implicit Types (h : list (@Behavior T _)).

Lemma chain_stackShape objects (context : T) calls r this :
  chain calls (begin objects context) = (r, this) → stackShape this.
Proof.
  intros Hrun.
  by destruct (chain_invariant (λ _, True) (λ _ _ _ _ _ _, I) calls _ _ _
                 (begin_stackShape objects context) I Hrun).
Qed.

(** C8, amended: in a state the builder reaches, a decorator on the stack is
    on top, childless, with composites only below it.  An open-parent call
    made then gives the decorator the new parent as its child and closes it:
    the decorator is popped and recorded as the current node, and the new
    parent takes its place on the stack, which keeps its depth.  So no two
    decorators are on the stack together. *)
Theorem open_on_decorator_closes_it objects (context : T) calls r this
    rest d cls0 child0 c cls :
  chain calls (begin objects context) = (r, this) →
  _parentNodeStack this = rest ++ [d] →
  heap this !! d = Some (Decorator cls0 child0) →
  parentOf c = Some cls →
  let n := length (heap this) in
  let this' := after (call c) this in
  (child0 = None ∧ Forall (compositeAt (heap this)) rest) ∧
  completion (call c) this = Normal tt ∧
  heap this' !! d = Some (Decorator cls0 (Some n)) ∧
  (∃ node, fresh node true ∧ heap this' !! n = Some node) ∧
  _currentNode this' = Some d ∧
  _parentNodeStack this' = rest ++ [n] ∧
(d ∉ _parentNodeStack this') ∧
  depth this' = depth this.
Proof.
  intros Hrun Hst Hd Hc n this'.
  pose proof (chain_stackShape _ _ _ _ _ Hrun) as Hshape.
  pose proof (lookup_lt_Some _ _ _ Hd) as Hlt.
  assert (Hlow : Forall (compositeAt (heap this)) rest).
  { apply Forall_forall. intros a Ha. by eapply stackShape_below. }
  assert (child0 = None) as ->.
  { destruct (stackShape_top _ _ _ Hshape Hst) as [(? & ? & ?)|[? ?]]; congruence. }
  split; [done|]. subst this'. unfold completion, after, depth.
  rewrite (call_parent _ _ Hc). unfold openParent. eff.
  destruct (fresh_newParent this cls) as (node & Hfresh & ->).
  rewrite pushParentNode_nonempty by (cbn; rewrite Hst; by destruct rest).
  unfold after.
  erewrite setChildOnParent_decorator;
    [|cbn; exact Hst|cbn; by rewrite lookup_app_l].
  cbn. fold n. split_and!; try done.
  - apply list_lookup_insert_eq. rewrite length_app. lia.
  - exists node. split; [done|]. rewrite list_lookup_insert_ne by (subst n; lia).
    by apply list_lookup_middle.
  - intros [Hin|Hin%list_elem_of_singleton]%elem_of_app; [|subst n; lia].
    destruct (proj1 (Forall_forall _ _) Hlow d Hin) as (? & ? & ?). congruence.
  - rewrite Hst, !length_app. done.
Qed.

End OpenOnDecorator.

(** ** Building *)

Section Building.

Context {T : Type} `{Externals}.

Implicit Types (this : @BehaviorTreeBuilder T _) (node : @Behavior T _).
Implicit Types (c : @Call T _) (calls : list (@Call T _)).
Implicit Types (h : list (@Behavior T _)).

Lemma build_unset this period :
  _currentNode this = None → build period this = (Throw EmptyTree, this).
Proof. intros Hcur. unfold build. eff. by rewrite Hcur. Qed.

Lemma build_set this period (current : ref) :
  _currentNode this = Some current →
  build period this =
    (Normal {| context := _context this; root := current;
               updatePeriod := default 0x1.999999999999ap-3%float period |},
     this).
Proof. intros Hcur. unfold build. eff. by rewrite Hcur. Qed.

(** A step sets the current node exactly when it closes a frame, and keeps
    the context. *)
Lemma step_currentNode closed this this' :
  step closed this this' →
  (is_Some (_currentNode this') ↔ is_Some (_currentNode this) ∨ closed = true) ∧
  _context this' = _context this.
Proof.
  intros [| | |]; cbn; (split; [|done]); split; eauto; intros [?|?]; eauto;
    done.
Qed.

Lemma chain_currentNode calls : ∀ this this',
  stackShape this → chain calls this = (Normal tt, this') →
  (is_Some (_currentNode this') ↔
     is_Some (_currentNode this) ∨ everCloses calls this = true) ∧
  _context this' = _context this.
Proof.
  induction calls as [|c calls IH]; intros this this' Hshape.
  - cbn. unfold mret, Eff_ret. intros [= <-]. split; [|done].
    split; [eauto|]. by intros [?|?].
  - cbn. unfold mbind, Eff_bind, after.
    destruct (call c this) as [r1 this1] eqn:Hcall. cbn.
    destruct (call_step _ _ _ _ Hshape Hcall) as [([e ->] & -> & _)|[-> Hstep]];
      [done|].
    intros Hrun.
    destruct (IH _ _ (step_stackShape _ _ _ Hshape Hstep) Hrun) as [Hcur Hctx].
    destruct (step_currentNode _ _ _ Hstep) as [Hcur1 Hctx1].
    split; [|congruence].
    rewrite Hcur, Hcur1, orb_true_iff. tauto.
Qed.

(** C5, amended: after a chain of calls on a new builder, build throws
    EmptyTree exactly when no call of the chain closed a frame, that is, when
    the current node is unset; nodes attached to a composite that is still
    open do not count.  When some call closed a frame (a decorator received
    its child, or endComposite succeeded) build succeeds and returns the tree
    made of the context given to begin, the current node as root, and the
    update period. *)
Theorem build_throws_iff_nothing_closed objects (context : T) calls this period :
  chain calls (begin objects context) = (Normal tt, this) →
  (build period this = (Throw EmptyTree, this) ↔
     everCloses calls (begin objects context) = false) ∧
  (everCloses calls (begin objects context) = true →
     ∃ current, _currentNode this = Some current ∧
       build period this =
         (Normal {| context := context; root := current;
                    updatePeriod := default 0x1.999999999999ap-3%float period |},
          this)).
Proof.
  intros Hrun.
  destruct (chain_currentNode _ _ _ (begin_stackShape objects context) Hrun)
    as [Hcur Hctx].
  cbn in Hcur, Hctx. split.
  - destruct (_currentNode this) as [current|] eqn:Hnode.
    + rewrite (build_set _ _ _ Hnode). split; [done|]. intros Hnone.
      destruct (proj1 Hcur) as [[? [=]]|?]; [eauto|congruence].
    + rewrite (build_unset _ _ Hnode). split; [|done]. intros _.
      destruct (everCloses calls _) eqn:Hever; [|done].
      destruct (proj2 Hcur) as [? [=]]. by right.
  - intros Hever. destruct (proj2 Hcur) as [current Hnode]; [by right|].
    exists current. split; [done|]. by rewrite (build_set _ _ _ Hnode), Hctx.
Qed.

(** C6, amended: on a new builder action throws EmptyParentStack, whatever
    its function, so begin(ctx).action(f).build() produces no tree; were the
    leaf made and attached without the assertion, nothing would hold it and
    build would throw EmptyTree.  With a parent opened first,
    begin(ctx).sequence().action(f).endComposite().build() succeeds: the root
    of the tree is the sequence, and its only child is the leaf that holds
    the function. *)
Theorem leaf_needs_open_parent objects (context : T) (func : T → TaskStatus) period :
  (action func;; build period) (begin objects context) =
    (Throw EmptyParentStack, begin objects context) ∧
  (child ← new (Leaf (ExecuteAction func)); setChildOnParent child;; build period)
      (begin objects context) =
    (Throw EmptyTree,
     {| heap := objects ++ [Leaf (ExecuteAction func)]; _context := context;
        _currentNode := None; _parentNodeStack := [] |}) ∧
  (sequence None;; action func;; endComposite;; build period) (begin objects context) =
    (Normal {| context := context; root := length objects;
               updatePeriod := default 0x1.999999999999ap-3%float period |},
     {| heap := objects ++ [Composite (Sequence AbortTypes_None) [S (length objects)];
                            Leaf (ExecuteAction func)];
        _context := context;
        _currentNode := Some (length objects);
        _parentNodeStack := [] |}).
Proof.
  split_and!; [reflexivity..|].
  assert (Hopen : sequence None (begin objects context) =
            (Normal tt,
             {| heap := objects ++ [Composite (Sequence AbortTypes_None) []];
                _context := context; _currentNode := None;
                _parentNodeStack := [length objects] |})) by reflexivity.
  assert (Hleaf : (objects ++ [Composite (Sequence AbortTypes_None) []])
                    !! length objects
                  = Some (Composite (Sequence AbortTypes_None) []))
    by by apply list_lookup_middle.
  unfold mbind at 1, Eff_bind. rewrite Hopen.
  change (action func) with (addLeaf (ExecuteAction func)).
  unfold mbind at 1, Eff_bind.
  rewrite addLeaf_nonempty by done. cbn.
  rewrite (setChildOnParent_composite _ [] (length objects)
             (Sequence AbortTypes_None) []);
    [|done|cbn; rewrite lookup_app_l; [done|rewrite length_app; cbn; lia]].
  cbn. rewrite length_app. cbn. rewrite Nat.add_1_r.
  rewrite <- app_assoc. cbn.
  rewrite insert_app_r_alt, Nat.sub_diag by done. cbn.
  unfold mbind at 1, Eff_bind.
  erewrite (endComposite_composite _ [] (length objects));
    [|done|cbn; by apply list_lookup_middle].
  cbn. by erewrite build_set.
Qed.

End Building.

(** ** Frames still open at build *)

Section OpenFrames.

Context {T : Type} `{Externals}.

Implicit Types (this : @BehaviorTreeBuilder T _) (node : @Behavior T _).
Implicit Types (c : @Call T _) (calls : list (@Call T _)).
Implicit Types (h : list (@Behavior T _)).

Lemma increasing_snoc l n :
  increasing l → (∀ a, a ∈ l → a < n) → increasing (l ++ [n]).
Proof.
  intros Hinc Hlt i j a b Hi Hj Hij.
  apply lookup_snoc_Some in Hi as [[Hi Ha]|[-> <-]];
    apply lookup_snoc_Some in Hj as [[Hj Hb]|[-> <-]].
  - by eapply Hinc.
  - apply Hlt. by eapply list_elem_of_lookup_2.
  - lia.
  - lia.
Qed.

Lemma increasing_lower l x :
  increasing (l ++ [x]) → increasing l ∧ ∀ a, a ∈ l → a < x.
Proof.
  intros Hinc. split.
  - intros i j a b Hi Hj Hij.
    apply (Hinc i j); [by apply lookup_app_l_Some..|done].
  - intros a [i Hi]%list_elem_of_lookup.
    apply (Hinc i (length l)).
    + by apply lookup_app_l_Some.
    + by apply list_lookup_middle.
    + by eapply lookup_lt_Some.
Qed.

Lemma fresh_childless node push : fresh node push → childrenOf node = [].
Proof. by destruct node as [? [|]|? [|]|]. Qed.

Lemma edge_alloc h node x y :
  childrenOf node = [] → edge (h ++ [node]) x y → edge h x y.
Proof.
  intros Hnode (k & Hk & Hy).
  apply lookup_snoc_Some in Hk as [[_ Hk]|[_ <-]].
  - by exists k.
  - rewrite Hnode in Hy. by apply elem_of_nil in Hy.
Qed.

Lemma edge_attach h p k node x y :
  childrenOf node = [] → edge (<[p := k]> (h ++ [node])) x y →
  (x = p ∧ y ∈ childrenOf k) ∨ (x ≠ p ∧ edge h x y).
Proof.
  intros Hnode (k' & Hk & Hy).
  apply list_lookup_insert_Some in Hk as [(-> & -> & _)|[Hne Hk]].
  - by left.
  - right. split; [done|]. apply (edge_alloc h node); [done|]. by exists k'.
Qed.

Lemma inTree_bound h base x y :
  (∀ x y, base ≤ x → edge h x y → x < y < length h) →
  base ≤ x → x < length h → inTree h x y → x ≤ y < length h.
Proof.
  intros Hedges Hbase Hlt Hreach.
  induction Hreach as [x|x z y Hxz Hzy IH]; [lia|].
  destruct (Hedges x z Hbase Hxz). destruct IH; lia.
Qed.

Lemma inTree_sink h x y : (∀ z, ¬ edge h x z) → inTree h x y → y = x.
Proof. intros Hsink Hreach. destruct Hreach as [|x z y Hxz _]; [done|]. by destruct (Hsink z). Qed.

(** Reaching a node in a heap that has one edge more, into a node without
    children. *)
Lemma inTree_new_edge h h' p n x y :
  (∀ x y, edge h' x y → edge h x y ∨ (x = p ∧ y = n)) →
  (∀ z, ¬ edge h' n z) →
  inTree h' x y → inTree h x y ∨ (y = n ∧ inTree h x p).
Proof.
  intros Hedge Hsink Hreach.
  induction Hreach as [x|x z y Hxz Hzy IH]; [left; apply rtc_refl|].
  destruct (Hedge _ _ Hxz) as [Hold|[-> ->]].
  - destruct IH as [IH|[-> IH]].
    + left. by eapply rtc_l.
    + right. split; [done|]. by eapply rtc_l.
  - right. apply inTree_sink in Hzy; [|done]. split; [done|apply rtc_refl].
Qed.

Lemma elem_of_pushed h push a : a ∈ pushed h push → a = length h.
Proof. destruct push; cbn; [by intros ?%list_elem_of_singleton|by intros ?%elem_of_nil]. Qed.

Lemma increasing_pushed l h push :
  increasing l → (∀ a, a ∈ l → a < length h) → increasing (l ++ pushed h push).
Proof.
  intros Hinc Hlt. destruct push; cbn.
  - by apply increasing_snoc.
  - by rewrite app_nil_r.
Qed.

Lemma step_ordered base closed this this' :
  ordered base this → step closed this this' → ordered base this'.
Proof.
  intros (Hbase & Hinc & Hstack & Hcur & Hedges) Hstep.
  destruct Hstep as [h ctx cur rest p cls cs node push Hfresh Hp
                    |h ctx cur rest d cls node push Hfresh Hd
                    |h ctx cur node Hfresh
                    |h ctx cur rest p cls cs Hp]; cbn in *.
  - pose proof (lookup_lt_Some _ _ _ Hp) as Hlt.
    pose proof (fresh_childless _ _ Hfresh) as Hnode.
    assert (Hpin : p ∈ rest ++ [p]) by (apply elem_of_app; right; by left).
    unfold ordered; cbn. rewrite length_insert, length_app. cbn.
    split_and!.
    + lia.
    + apply increasing_pushed; [done|]. intros a Ha. by apply Hstack.
    + intros a [Ha|Ha%elem_of_pushed]%elem_of_app.
      * specialize (Hstack a Ha). lia.
      * lia.
    + intros c Hc. destruct (Hcur c Hc) as [Hrange Hnot]. split; [lia|].
      intros [Ha|Ha%elem_of_pushed]%elem_of_app; [done|lia].
    + intros x y Hx [[-> Hy]|[Hne Hold]]%edge_attach; [|..|done].
      * cbn in Hy. apply elem_of_app in Hy as [Hy|Hy%list_elem_of_singleton];
          [|subst; lia].
        assert (p < y < length h); [|lia].
        apply Hedges; [by apply Hstack|]. by exists (Composite cls cs).
      * specialize (Hedges x y Hx Hold). lia.
  - pose proof (lookup_lt_Some _ _ _ Hd) as Hlt.
    pose proof (fresh_childless _ _ Hfresh) as Hnode.
    destruct (increasing_lower _ _ Hinc) as [Hinc' Hbelow].
    assert (Hrest : ∀ a, a ∈ rest → base ≤ a < length h).
    { intros a Ha. apply Hstack, elem_of_app. by left. }
    assert (Hdin : base ≤ d < length h).
    { apply Hstack, elem_of_app. right. by left. }
    unfold ordered; cbn. rewrite length_insert, length_app. cbn.
    split_and!.
    + lia.
    + apply increasing_pushed; [done|]. intros a Ha. by apply Hrest.
    + intros a [Ha|Ha%elem_of_pushed]%elem_of_app.
      * specialize (Hrest a Ha). lia.
      * lia.
    + intros c [= <-]. split; [lia|].
      intros [Ha|Ha%elem_of_pushed]%elem_of_app; [|lia].
      specialize (Hbelow d Ha). lia.
    + intros x y Hx [[-> Hy]|[Hne Hold]]%edge_attach; [|..|done].
      * cbn in Hy. apply list_elem_of_singleton in Hy as ->. lia.
      * specialize (Hedges x y Hx Hold). lia.
  - pose proof (fresh_childless _ _ Hfresh) as Hnode.
    unfold ordered; cbn. rewrite length_app. cbn.
    split_and!.
    + lia.
    + apply (increasing_snoc []); [|by intros a ?%elem_of_nil].
      intros i j a b Hi. by cbn in Hi.
    + intros a Ha%list_elem_of_singleton. lia.
    + intros c Hc. destruct (Hcur c Hc) as [Hrange Hnot]. split; [lia|].
      intros Ha%list_elem_of_singleton. lia.
    + intros x y Hx Hold%edge_alloc; [|done].
      specialize (Hedges x y Hx Hold). lia.
  - destruct (increasing_lower _ _ Hinc) as [Hinc' Hbelow].
    unfold ordered; cbn. split_and!.
    + done.
    + done.
    + intros a Ha. apply Hstack, elem_of_app. by left.
    + intros c [= <-]. split.
      * apply Hstack, elem_of_app. right. by left.
      * intros Ha. specialize (Hbelow p Ha). lia.
    + done.
Qed.

Lemma inTree_alloc h node x y :
  childrenOf node = [] → inTree (h ++ [node]) x y → inTree h x y.
Proof.
  intros Hnode Hreach.
  induction Hreach as [x|x z y Hxz Hzy IH]; [apply rtc_refl|].
  eapply rtc_l; [|done]. by eapply edge_alloc.
Qed.

Lemma step_openFramesOutside base closed this this' :
  ordered base this → openFramesOutside this → step closed this this' →
  openFramesOutside this'.
Proof.
  intros Hord Hout Hstep.
  pose proof (step_ordered _ _ _ _ Hord Hstep) as Hord'.
  destruct Hord as (Hbase & Hinc & Hstack & Hcur & Hedges).
  destruct Hord' as (_ & _ & _ & _ & Hedges').
  destruct Hstep as [h ctx cur rest p cls cs node push Hfresh Hp
                    |h ctx cur rest d cls node push Hfresh Hd
                    |h ctx cur node Hfresh
                    |h ctx cur rest p cls cs Hp]; cbn in *.
  - pose proof (lookup_lt_Some _ _ _ Hp) as Hlt.
    pose proof (fresh_childless _ _ Hfresh) as Hnode.
    assert (Hpin : p ∈ rest ++ [p]) by (apply elem_of_app; right; by left).
    intros c Hc. cbn in *. destruct (Hcur c Hc) as [Hrange Hnot].
    destruct (Hout c Hc) as [HA|(k & m & Hk & Hm)]; cbn in *.
    + left. intros a Ha Hreach.
      apply (inTree_new_edge h _ p (length h)) in Hreach.
      * destruct Hreach as [Hreach|[-> Hreach]]; [|by apply (HA p)].
        apply elem_of_app in Ha as [Ha|Ha%elem_of_pushed]; [by apply (HA a)|].
        subst a. apply (inTree_bound h base) in Hreach; [lia|done|lia..].
      * intros x y [[-> Hy]|[Hne Hold]]%edge_attach; [|by left|done].
        cbn in Hy. apply elem_of_app in Hy as [Hy|Hy%list_elem_of_singleton].
        -- left. by exists (Composite cls cs).
        -- by right.
      * intros z [[Heq _]|[_ (k & Hk & _)]]%edge_attach; [lia| |done].
        apply lookup_lt_Some in Hk. lia.
    + right. exists k, m. split; [|apply elem_of_app; by left].
      rewrite list_lookup_insert_ne by (intros ->; done).
      by rewrite lookup_app_l by lia.
  - pose proof (lookup_lt_Some _ _ _ Hd) as Hlt.
    destruct (increasing_lower _ _ Hinc) as [_ Hbelow].
    assert (Hdin : base ≤ d < length h).
    { apply Hstack, elem_of_app. right. by left. }
    intros c [= <-]. cbn. destruct push; cbn.
    + right. exists cls, (length h). split; [|apply elem_of_app; right; by left].
      apply list_lookup_insert_eq. rewrite length_app. lia.
    + left. rewrite app_nil_r. intros a Ha Hreach.
      apply (inTree_bound _ base) in Hreach;
        [|done|lia|rewrite length_insert, length_app; lia].
      specialize (Hbelow a Ha). lia.
  - pose proof (fresh_childless _ _ Hfresh) as Hnode.
    intros c Hc. cbn in *. destruct (Hcur c Hc) as [Hrange _].
    left. intros a Ha%list_elem_of_singleton Hreach. subst a.
    apply inTree_alloc in Hreach; [|done].
    apply (inTree_bound h base) in Hreach; [lia|done|lia..].
  - destruct (increasing_lower _ _ Hinc) as [_ Hbelow].
    assert (Hpin : base ≤ p < length h).
    { apply Hstack, elem_of_app. right. by left. }
    intros c [= <-]. cbn. left. intros a Ha Hreach.
    apply (inTree_bound h base) in Hreach; [|done|lia..].
    specialize (Hbelow a Ha). lia.
Qed.

Lemma begin_ordered (objects : list (@Behavior T _)) (context : T) :
  ordered (length objects) (begin objects context).
Proof.
  unfold ordered; cbn. split_and!.
  - done.
  - intros i j a b Hi. by cbn in Hi.
  - by intros a ?%elem_of_nil.
  - done.
  - intros x y Hx (k & Hk & _). apply lookup_lt_Some in Hk. lia.
Qed.

(** C9, amended: when the current node is set, build succeeds whatever
    frames are still on the stack, and the tree it returns has the current
    node for root.  The current node is none of the open frames.  Either no
    open frame is in the tree of the root, or the root is a decorator that
    closed on receiving a parent that is still open: this parent is its
    child, and it is in the tree with whatever is attached below it. *)
Theorem build_with_open_frames objects (context : T) calls r this
    (current : ref) period :
  chain calls (begin objects context) = (r, this) →
  _currentNode this = Some current →
  build period this =
    (Normal {| context := context; root := current;
               updatePeriod := default 0x1.999999999999ap-3%float period |},
     this) ∧
  (current ∉ _parentNodeStack this) ∧
  ((∀ a, a ∈ _parentNodeStack this → ¬ inTree (heap this) current a) ∨
   (∃ cls n, heap this !! current = Some (Decorator cls (Some n)) ∧
             n ∈ _parentNodeStack this ∧ inTree (heap this) current n)).
Proof.
  intros Hrun Hcurrent.
  set (P := λ this, _context this = context ∧
                    ordered (length objects) this ∧ openFramesOutside this).
  assert (Hkeep : ∀ closed this1 this2,
            stackShape this1 → P this1 → step closed this1 this2 → P this2).
  { intros closed this1 this2 _ (Hctx & Hord & Hout) Hstep. split_and!.
    - destruct (step_currentNode _ _ _ Hstep) as [_ Heq]. congruence.
    - by eapply step_ordered.
    - by eapply step_openFramesOutside. }
  assert (Hinit : P (begin objects context)).
  { split_and!; [done|apply begin_ordered|]. by intros c Hc. }
  destruct (chain_invariant P Hkeep calls _ _ _
              (begin_stackShape objects context) Hinit Hrun)
    as (_ & Hctx & Hord & Hout).
  split_and!.
  - by rewrite (build_set _ _ _ Hcurrent), Hctx.
  - destruct Hord as (_ & _ & _ & Hcur & _). by apply Hcur.
  - destruct (Hout _ Hcurrent) as [HA|(cls & n & Hn & Hin)]; [by left|].
    right. exists cls, n. split_and!; [done..|].
    eapply rtc_l; [|apply rtc_refl]. exists (Decorator cls (Some n)).
    split; [done|]. cbn. by left.
Qed.

End OpenFrames.

(** ** Runs of concrete call sequences *)

(** begin(ctx).alwaysFail().inverter().action(_ => Success): before the
    inverter is opened the stack is one frame deep; after its child is
    attached the stack is empty. *)
Lemma decorator_under_decorator_depth :
  depth (after (chain [call_alwaysFail]) start) = 1 ∧
  topFrame (after (chain [call_alwaysFail; call_inverter]) start)
    = Some (Decorator Inverter None) ∧
  chain [call_alwaysFail; call_inverter; call_action succeed] start =
    (Normal tt,
     {| heap := [Decorator AlwaysFail (Some 1); Decorator Inverter (Some 2);
                 Leaf (ExecuteAction succeed)];
        _context := tt; _currentNode := Some 1; _parentNodeStack := [] |}).
Proof. split_and!; reflexivity. Qed.

Lemma decorator_closes_on_child_witness :
  topIsDecorator (after alwaysFail start) = true ∧
  depth (after (setChildOnParent 2)
           (after (openParent Inverter) (after alwaysFail start))) + 1
    = depth (after alwaysFail start).
Proof.
  split; [reflexivity|].
  assert (Halloc : ∀ top,
            ArrayExt.peek (_parentNodeStack (after alwaysFail start)) = Some top →
            top < length (heap (after alwaysFail start))).
  { intros top Htop. vm_compute in Htop. injection Htop as <-.
    vm_compute. constructor. }
  destruct (decorator_closes_on_child (after alwaysFail start) Inverter 2
              eq_refl Halloc) as (_ & _ & _ & _ & _ & _ & _ & _ & Hdepth).
  exact (Hdepth eq_refl).
Defined.

(** begin(ctx).sequence().action(_ => Success): a leaf is attached to the
    sequence, and build throws EmptyTree. *)
Lemma attached_leaf_build_throws :
  chain [call_sequence None; call_action succeed] start =
    (Normal tt,
     {| heap := [Composite (Sequence AbortTypes_None) [1];
                 Leaf (ExecuteAction succeed)];
        _context := tt; _currentNode := None; _parentNodeStack := [0] |}) ∧
  (chain [call_sequence None; call_action succeed];; build None) start =
    (Throw EmptyTree,
     {| heap := [Composite (Sequence AbortTypes_None) [1];
                 Leaf (ExecuteAction succeed)];
        _context := tt; _currentNode := None; _parentNodeStack := [0] |}).
Proof. split; reflexivity. Qed.

Lemma build_throws_iff_nothing_closed_witness :
  build None (after (chain [call_sequence None; call_action succeed]) start) =
    (Throw EmptyTree,
     after (chain [call_sequence None; call_action succeed]) start).
Proof.
  exact (proj2 (proj1 (build_throws_iff_nothing_closed [] tt
                         [call_sequence None; call_action succeed]
                         (after (chain [call_sequence None; call_action succeed]) start)
                         None eq_refl)) eq_refl).
Defined.

(** begin(ctx).action(_ => Success).build(): action throws; and were the
    leaf attached without the assertion, build would throw. *)
Lemma action_on_new_builder_throws :
  (action succeed;; build None) start = (Throw EmptyParentStack, start) ∧
  (child ← new (Leaf (ExecuteAction succeed)); setChildOnParent child;; build None)
      start =
    (Throw EmptyTree,
     {| heap := [Leaf (ExecuteAction succeed)]; _context := tt;
        _currentNode := None; _parentNodeStack := [] |}).
Proof. split; reflexivity. Qed.

Lemma composite_stays_open_witness :
  heap (after (chain [call_action succeed; call_logAction "log"])
          (after (sequence None) start)) =
    [Composite (Sequence AbortTypes_None) [1; 2];
     Leaf (ExecuteAction succeed); Leaf (LogAction "log")] ∧
  depth (after endComposite
           (after (chain [call_action succeed; call_logAction "log"])
              (after (sequence None) start))) + 1 = 1.
Proof.
  destruct (proj2 (composite_stays_open (after (sequence None) start) [] 0
                     (Sequence AbortTypes_None) [] eq_refl eq_refl)
              [call_action succeed; call_logAction "log"])
    as (_ & _ & _ & Hheap & _ & Hdepth).
  - repeat constructor; eexists; reflexivity.
  - split; [exact Hheap|exact Hdepth].
Defined.

(** begin(ctx).alwaysFail().inverter(): the first decorator has the second
    for child and is the current node; the second alone is on the stack. *)
Lemma second_decorator_closes_first :
  chain [call_alwaysFail; call_inverter] start =
    (Normal tt,
     {| heap := [Decorator AlwaysFail (Some 1); Decorator Inverter None];
        _context := tt; _currentNode := Some 0; _parentNodeStack := [1] |}).
Proof. reflexivity. Qed.

Lemma open_on_decorator_closes_it_witness :
  heap (after (call call_inverter) (after (chain [call_alwaysFail]) start)) !! 0
    = Some (Decorator AlwaysFail (Some 1)) ∧
  _currentNode (after (call call_inverter) (after (chain [call_alwaysFail]) start))
    = Some 0 ∧
  _parentNodeStack (after (call call_inverter) (after (chain [call_alwaysFail]) start))
    = [1].
Proof.
  destruct (open_on_decorator_closes_it [] tt [call_alwaysFail] (Normal tt)
              (after (chain [call_alwaysFail]) start) [] 0 AlwaysFail None
              call_inverter Inverter eq_refl eq_refl eq_refl eq_refl)
    as (_ & _ & Hchild & _ & Hcur & Hstack & _).
  split_and!; [exact Hchild|exact Hcur|exact Hstack].
Defined.

(** begin(ctx).alwaysFail().sequence().selector().action(_ => Success).build():
    the tree is rooted at the decorator; the sequence and the selector are
    still open, and they and the leaf are in the tree. *)
Lemma open_frames_in_built_tree :
  (chain [call_alwaysFail; call_sequence None; call_selector None;
          call_action succeed];; build None) start =
    (Normal {| context := tt; root := 0;
               updatePeriod := 0x1.999999999999ap-3%float |},
     {| heap := [Decorator AlwaysFail (Some 1);
                 Composite (Sequence AbortTypes_None) [2];
                 Composite (Selector AbortTypes_None) [3];
                 Leaf (ExecuteAction succeed)];
        _context := tt; _currentNode := Some 0; _parentNodeStack := [1; 2] |}) ∧
  inTree (T := unit) (H := sampleExternals)
    [Decorator AlwaysFail (Some 1); Composite (Sequence AbortTypes_None) [2];
     Composite (Selector AbortTypes_None) [3]; Leaf (ExecuteAction succeed)] 0 1 ∧
  inTree (T := unit) (H := sampleExternals)
    [Decorator AlwaysFail (Some 1); Composite (Sequence AbortTypes_None) [2];
     Composite (Selector AbortTypes_None) [3]; Leaf (ExecuteAction succeed)] 0 2 ∧
  inTree (T := unit) (H := sampleExternals)
    [Decorator AlwaysFail (Some 1); Composite (Sequence AbortTypes_None) [2];
     Composite (Selector AbortTypes_None) [3]; Leaf (ExecuteAction succeed)] 0 3.
Proof.
  assert (Hedge : ∀ x node y h, h !! x = Some node → y ∈ childrenOf node →
            edge (T := unit) (H := sampleExternals) h x y)
    by (intros x node y h ? ?; by exists node).
  split_and!; [reflexivity|..]; unfold inTree.
  - eapply rtc_l; [|apply rtc_refl]. eapply Hedge; [reflexivity|by left].
  - eapply rtc_l; [eapply Hedge; [reflexivity|by left]|].
    eapply rtc_l; [|apply rtc_refl]. eapply Hedge; [reflexivity|by left].
  - eapply rtc_l; [eapply Hedge; [reflexivity|by left]|].
    eapply rtc_l; [eapply Hedge; [reflexivity|by left]|].
    eapply rtc_l; [|apply rtc_refl]. eapply Hedge; [reflexivity|by left].
Qed.

Lemma build_with_open_frames_witness :
  build None (after (chain [call_alwaysFail; call_sequence None]) start) =
    (Normal {| context := tt; root := 0;
               updatePeriod := 0x1.999999999999ap-3%float |},
     after (chain [call_alwaysFail; call_sequence None]) start) ∧
  (0 ∉ _parentNodeStack (after (chain [call_alwaysFail; call_sequence None]) start)).
Proof.
  destruct (build_with_open_frames [] tt [call_alwaysFail; call_sequence None]
              (Normal tt) (after (chain [call_alwaysFail; call_sequence None]) start)
              0 None eq_refl eq_refl) as (Hbuild & Hroot & _).
  split; [exact Hbuild|exact Hroot].
Defined.

(** ** More on the AlwaysFail decorator *)

Section AlwaysFailOutcomes.

Context {T W B : Type} `{!AlwaysFail.Behavior (T:=T) (W:=W) B}.

Lemma AlwaysFail_update_not_Success (this : AlwaysFail.AlwaysFail B)
    (context : T) (w w' : W) :
  AlwaysFail.AlwaysFail_update this context w ≠ (Normal Success, w').
Proof.
  destruct this as [[c|]]; unfold AlwaysFail.AlwaysFail_update; eff; [|done].
  destruct (AlwaysFail.update c context w) as [[status|e] w1]; [|done].
  by destruct (decide (status = Running)).
Qed.

(** X1: the update of an AlwaysFail decorator without a child throws
    MissingChild and leaves the state alone; a fault thrown by the child's
    update is thrown on, with the state the child left; and the update never
    returns Success. *)
Theorem AlwaysFail_update_outcomes (this : AlwaysFail.AlwaysFail B)
    (context : T) (w : W) :
  (AlwaysFail.child this = None →
     AlwaysFail.AlwaysFail_update this context w = (Throw MissingChild, w)) ∧
  (∀ c e w', AlwaysFail.child this = Some c →
     AlwaysFail.update c context w = (Throw e, w') →
     AlwaysFail.AlwaysFail_update this context w = (Throw e, w')) ∧
  (∀ w', AlwaysFail.AlwaysFail_update this context w ≠ (Normal Success, w')).
Proof.
  split_and!.
  - destruct this as [[c|]]; [done|]. by intros _.
  - intros c e w' Hchild Hc. destruct this as [child]. cbn in Hchild. subst child.
    unfold AlwaysFail.AlwaysFail_update. eff. by rewrite Hc.
  - intros w'. apply AlwaysFail_update_not_Success.
Qed.

(** X2: an AlwaysFail decorator around an AlwaysFail decorator updates as
    the inner one does alone: the same status or fault, the same state. *)
Theorem AlwaysFail_nested (inner : AlwaysFail.AlwaysFail B) (context : T) (w : W) :
  AlwaysFail.AlwaysFail_update (AlwaysFail.Build_AlwaysFail (Some inner)) context w
  = AlwaysFail.AlwaysFail_update inner context w.
Proof.
  unfold AlwaysFail.AlwaysFail_update at 1. eff.
  unfold AlwaysFail.update at 1, AlwaysFail.AlwaysFail_Behavior.
  destruct (AlwaysFail.AlwaysFail_update inner context w) as [[status|e] w1] eqn:Hinner;
    [|done].
  destruct (decide (status = Running)) as [->|Hne]; [done|].
  destruct status; [|done..].
  by destruct (AlwaysFail_update_not_Success inner context w w1).
Qed.

End AlwaysFailOutcomes.

(** ** What one call does *)

Section Calls.

Context {T : Type} `{Externals}.

Implicit Types (this : @BehaviorTreeBuilder T _) (node : @Behavior T _).
Implicit Types (c : @Call T _) (calls : list (@Call T _)).
Implicit Types (h : list (@Behavior T _)).

Lemma newParent_eq this cls :
  newParent cls this =
    (Normal (length (heap this)), set_heap (λ h, h ++ [newNode cls]) this).
Proof. unfold newParent, newNode. by destruct (capability cls). Qed.

Lemma fresh_newNode (cls : @ParentClass T _) : fresh (newNode cls) true.
Proof. unfold newNode. by destruct (capability cls). Qed.

Lemma openParent_eq this cls :
  openParent cls this =
    pushParentNode (length (heap this)) (set_heap (λ h, h ++ [newNode cls]) this).
Proof. unfold openParent. eff. by rewrite newParent_eq. Qed.

(** A leaf added in a state of the right shape. *)
Lemma addLeaf_shape this lc rest p :
  stackShape this → _parentNodeStack this = rest ++ [p] →
  let n := length (heap this) in
  (∃ cls cs, heap this !! p = Some (Composite cls cs) ∧
     addLeaf lc this =
       (Normal tt,
        {| heap := <[p := Composite cls (cs ++ [n])]> (heap this ++ [Leaf lc]);
           _context := _context this; _currentNode := _currentNode this;
           _parentNodeStack := rest ++ [p] |})) ∨
  (∃ cls, heap this !! p = Some (Decorator cls None) ∧
     addLeaf lc this =
       (Normal tt,
        {| heap := <[p := Decorator cls (Some n)]> (heap this ++ [Leaf lc]);
           _context := _context this; _currentNode := Some p;
           _parentNodeStack := rest |})).
Proof.
  intros Hshape Hst n.
  rewrite addLeaf_nonempty by (rewrite Hst; by destruct rest).
  destruct (stackShape_top _ _ _ Hshape Hst) as [(cls & cs & Hp)|(cls & Hp)];
    pose proof (lookup_lt_Some _ _ _ Hp) as Hlt; [left|right].
  - exists cls, cs. split; [done|].
    by erewrite setChildOnParent_composite;
      [|exact Hst|cbn; by rewrite lookup_app_l].
  - exists cls. split; [done|].
    by erewrite setChildOnParent_decorator;
      [|exact Hst|cbn; by rewrite lookup_app_l].
Qed.

(** A parent opened on the empty stack, and in a state of the right shape. *)
Lemma openParent_root this cls :
  _parentNodeStack this = [] →
  openParent cls this =
    (Normal tt,
     {| heap := heap this ++ [newNode cls];
        _context := _context this; _currentNode := _currentNode this;
        _parentNodeStack := [length (heap this)] |}).
Proof.
  intros Hst. rewrite openParent_eq, pushParentNode_eq.
  destruct this as [h ctx cur st]. cbn in *. by subst.
Qed.

Lemma openParent_shape this cls rest p :
  stackShape this → _parentNodeStack this = rest ++ [p] →
  let n := length (heap this) in
  (∃ k cs, heap this !! p = Some (Composite k cs) ∧
     openParent cls this =
       (Normal tt,
        {| heap := <[p := Composite k (cs ++ [n])]> (heap this ++ [newNode cls]);
           _context := _context this; _currentNode := _currentNode this;
           _parentNodeStack := rest ++ [p; n] |})) ∨
  (∃ k, heap this !! p = Some (Decorator k None) ∧
     openParent cls this =
       (Normal tt,
        {| heap := <[p := Decorator k (Some n)]> (heap this ++ [newNode cls]);
           _context := _context this; _currentNode := Some p;
           _parentNodeStack := rest ++ [n] |})).
Proof.
  intros Hshape Hst n.
  rewrite openParent_eq.
  rewrite pushParentNode_nonempty by (cbn; rewrite Hst; by destruct rest).
  unfold after.
  destruct (stackShape_top _ _ _ Hshape Hst) as [(k & cs & Hp)|(k & Hp)];
    pose proof (lookup_lt_Some _ _ _ Hp) as Hlt; [left|right].
  - exists k, cs. split; [done|].
    erewrite setChildOnParent_composite;
      [|exact Hst|cbn; by rewrite lookup_app_l].
    cbn. by rewrite <- app_assoc.
  - exists k. split; [done|].
    by erewrite setChildOnParent_decorator;
      [|exact Hst|cbn; by rewrite lookup_app_l].
Qed.

Lemma openParent_normal this cls : (openParent cls this).1 = Normal tt.
Proof. by rewrite openParent_eq, pushParentNode_eq. Qed.

(** X3: a call throws in two cases only, a leaf-adding call on the empty
    parent stack (EmptyParentStack) and endComposite when the top of the stack
    is not a composite, the empty stack included (NotAComposite); a call that
    throws leaves the builder exactly as it was, and every other call
    completes.  In particular no open-parent call ever throws. *)
Theorem call_throws_exactly c this :
  call c this =
    match faultOf c this with
    | Some e => (Throw e, this)
    | None => (Normal tt, after (call c) this)
    end.
Proof.
  destruct (call_cases c) as [[cls Hc]|[[cls Hc]| ->]].
  - assert (faultOf c this = match _parentNodeStack this with
                             | [] => Some EmptyParentStack
                             | _ => None
                             end) as ->.
    { destruct c; try done; cbn in *. }
    unfold after. rewrite (call_leaf _ _ Hc).
    destruct (_parentNodeStack this) as [|a st] eqn:Hst.
    + by apply addLeaf_empty.
    + rewrite addLeaf_nonempty by by rewrite Hst.
      pose proof (setChildOnParent_normal
                    (set_heap (λ h, h ++ [Leaf cls]) this) (length (heap this))).
      by destruct (setChildOnParent _ _) as [[[]|] ?].
  - assert (faultOf c this = None) as ->.
    { destruct c; try done; cbn in *; by destruct (_parentNodeStack this). }
    unfold after. rewrite (call_parent _ _ Hc).
    pose proof (openParent_normal this cls).
    by destruct (openParent cls this) as [[[]|] ?].
  - cbn. unfold after, endComposite. eff. by destruct (topIsComposite this).
Qed.

Lemma setChildOnParent_frame this child a :
  ArrayExt.peek (_parentNodeStack this) ≠ Some a →
  heap (after (setChildOnParent child) this) !! a = heap this !! a.
Proof.
  intros Htop. unfold after, setChildOnParent. revert Htop. eff.
  destruct (last (_parentNodeStack this)) as [p|]; eff; [|done].
  intros Hne.
  destruct (heap this !! p) as [[| |]|]; eff; try done;
    apply list_lookup_insert_ne; congruence.
Qed.

(** X5: a call changes no object that exists already other than the frame
    on top of the parent stack, and removes none. *)
Theorem call_frame c this a :
  a < length (heap this) →
  ArrayExt.peek (_parentNodeStack this) ≠ Some a →
  heap (after (call c) this) !! a = heap this !! a ∧
  length (heap this) ≤ length (heap (after (call c) this)).
Proof.
  intros Ha Htop.
  assert (Hset : ∀ child this1,
            length (heap this) ≤ length (heap (after (setChildOnParent child) this1))
            ∨ length (heap this1) < length (heap this)).
  { intros child this1. unfold after, setChildOnParent. eff.
    destruct (last (_parentNodeStack this1)) as [p|]; eff; [|lia].
    destruct (heap this1 !! p) as [[| |]|]; eff; rewrite ?length_insert; lia. }
  destruct (call_cases c) as [[cls Hc]|[[cls Hc]| ->]].
  - rewrite (call_leaf _ _ Hc).
    destruct (decide (_parentNodeStack this = [])) as [Hst|Hst].
    + unfold after. by rewrite addLeaf_empty.
    + assert (after (addLeaf cls) this =
              after (setChildOnParent (length (heap this)))
                (set_heap (λ h, h ++ [Leaf cls]) this)) as ->.
      { unfold after. by rewrite addLeaf_nonempty. }
      split.
      * rewrite (setChildOnParent_frame _ _ a) by done. cbn.
        by apply lookup_app_l.
      * destruct (Hset (length (heap this))
                    (set_heap (λ h, h ++ [Leaf cls]) this)) as [?|Hlt]; [done|].
        cbn in Hlt. rewrite length_app in Hlt. lia.
  - rewrite (call_parent _ _ Hc).
    destruct (decide (_parentNodeStack this = [])) as [Hst|Hst].
    + unfold after. rewrite openParent_root by done. cbn.
      rewrite length_app. split; [by apply lookup_app_l|lia].
    + assert (heap (after (openParent cls) this) =
              heap (after (setChildOnParent (length (heap this)))
                      (set_heap (λ h, h ++ [newNode cls]) this))) as ->.
      { unfold after at 1. rewrite openParent_eq.
        by rewrite pushParentNode_nonempty. }
      split.
      * rewrite (setChildOnParent_frame _ _ a) by done. cbn.
        by apply lookup_app_l.
      * destruct (Hset (length (heap this))
                    (set_heap (λ h, h ++ [newNode cls]) this)) as [?|Hlt]; [done|].
        cbn in Hlt. rewrite length_app in Hlt. lia.
  - cbn. unfold after, endComposite. eff.
    by destruct (topIsComposite this).
Qed.

End Calls.

(** ** The states the builder reaches *)

Section Reached.

Context {T : Type} `{Externals}.

Implicit Types (this : @BehaviorTreeBuilder T _) (node : @Behavior T _).
Implicit Types (c : @Call T _) (calls : list (@Call T _)).
Implicit Types (h : list (@Behavior T _)).

Lemma chain_ordered objects (context : T) calls r this :
  chain calls (begin objects context) = (r, this) →
  ordered (length objects) this.
Proof.
  intros Hrun.
  refine (proj2 (chain_invariant (ordered (length objects)) _ calls _ _ _
                   (begin_stackShape objects context)
                   (begin_ordered objects context) Hrun)).
  intros closed this1 this2 _ Hord Hstep. by eapply step_ordered.
Qed.

Lemma leaf_call_opens_nothing c lc : leafOf c = Some lc → opens c = false.
Proof. by destruct c. Qed.

Lemma parent_call_opens c cls : parentOf c = Some cls → opens c = true.
Proof. unfold opens. by intros ->. Qed.

Lemma closes_attach c : c ≠ call_endComposite → closes c = topIsDecorator.
Proof. by destruct c. Qed.

(** X4: in a state the builder reaches, a call that completes changes the
    depth of the parent stack by one up when it opens a parent and by one
    down when it closes a frame: a leaf on a composite leaves the depth, a
    leaf on a decorator and endComposite lower it by one, a parent opened on
    a decorator leaves it, and a parent opened otherwise raises it by one. *)
Theorem call_depth objects (context : T) calls r this c :
  chain calls (begin objects context) = (r, this) →
  faultOf c this = None →
  depth (after (call c) this) + (if closes c this then 1 else 0)
  = depth this + (if opens c then 1 else 0).
Proof.
  intros Hrun Hfault. pose proof (chain_stackShape _ _ _ _ _ Hrun) as Hshape.
  unfold depth, after.
  destruct (call_cases c) as [[lc Hc]|[[cls Hc]| ->]].
  - rewrite (leaf_call_opens_nothing _ _ Hc), closes_attach by (by destruct c).
    rewrite (call_leaf _ _ Hc).
    destruct (_parentNodeStack this) as [|p rest _] eqn:Hst using rev_ind.
    { destruct c; cbn in *; try done; by rewrite Hst in Hfault. }
    unfold topIsDecorator. rewrite (topFrame_snoc _ _ _ Hst).
    destruct (addLeaf_shape this lc rest p Hshape Hst)
      as [(k & cs & Hp & ->)|(k & Hp & ->)]; rewrite Hp; cbn;
      rewrite ?length_app; cbn; lia.
  - rewrite (parent_call_opens _ _ Hc), closes_attach by (by destruct c).
    rewrite (call_parent _ _ Hc).
    destruct (_parentNodeStack this) as [|p rest _] eqn:Hst using rev_ind.
    { rewrite openParent_root by done. unfold topIsDecorator.
      by rewrite topFrame_nil. }
    unfold topIsDecorator. rewrite (topFrame_snoc _ _ _ Hst).
    destruct (openParent_shape this cls rest p Hshape Hst)
      as [(k & cs & Hp & ->)|(k & Hp & ->)]; rewrite Hp; cbn;
      rewrite ?length_app; cbn; lia.
  - cbn in *. destruct (topIsComposite this) eqn:Htop; [|done].
    destruct (_parentNodeStack this) as [|p rest _] eqn:Hst using rev_ind.
    { by rewrite topIsComposite_topFrame, topFrame_nil in Htop. }
    rewrite topIsComposite_topFrame, (topFrame_snoc _ _ _ Hst) in Htop.
    destruct (heap this !! p) as [[k cs| |]|] eqn:Hp; try done.
    erewrite endComposite_composite by done. cbn. rewrite length_app. cbn. lia.
Qed.


Lemma grows_refl node : grows node node.
Proof. destruct node as [k cs|k [ch|]|lc]; cbn; auto. Qed.

Lemma grows_trans node1 node2 node3 :
  grows node1 node2 → grows node2 node3 → grows node1 node3.
Proof.
  destruct node1 as [k1 cs1|k1 ch1|lc1], node2 as [k2 cs2|k2 ch2|lc2],
    node3 as [k3 cs3|k3 ch3|lc3]; cbn; try done.
  - intros [-> H12] [-> H23]. split; [done|]. by etrans.
  - intros [-> H12] [-> H23]. split; [done|].
    destruct H12 as [H12|H12]; subst; auto.
  - congruence.
Qed.

Lemma step_grows closed this this' a node :
  step closed this this' → heap this !! a = Some node →
  ∃ node', heap this' !! a = Some node' ∧ grows node node'.
Proof.
  intros Hstep Ha. pose proof (lookup_lt_Some _ _ _ Ha) as Hlt.
  destruct Hstep as [h ctx cur rest p cls cs node0 push Hfresh Hp
                    |h ctx cur rest d cls node0 push Hfresh Hd
                    |h ctx cur node0 Hfresh
                    |h ctx cur rest p cls cs Hp]; cbn in *.
  - destruct (decide (a = p)) as [->|Hne].
    + exists (Composite cls (cs ++ [length h])). split.
      * apply list_lookup_insert_eq. rewrite length_app. lia.
      * rewrite Hp in Ha. injection Ha as <-. cbn. split; [done|].
        by apply prefix_app_r.
    + exists node. split; [|apply grows_refl].
      rewrite list_lookup_insert_ne by done. by rewrite lookup_app_l.
  - destruct (decide (a = d)) as [->|Hne].
    + exists (Decorator cls (Some (length h))). split.
      * apply list_lookup_insert_eq. rewrite length_app. lia.
      * rewrite Hd in Ha. injection Ha as <-. cbn. auto.
    + exists node. split; [|apply grows_refl].
      rewrite list_lookup_insert_ne by done. by rewrite lookup_app_l.
  - exists node. split; [|apply grows_refl]. by rewrite lookup_app_l.
  - exists node. split; [done|apply grows_refl].
Qed.

(** X7: from a state the builder has reached on, no object is removed or
    replaced by another kind: a leaf stays as it is; a decorator keeps its
    class and, once it has a child, that child for good; a composite keeps its
    class and its children in their order, and only gains children at the
    end. *)
Theorem objects_only_grow objects (context : T) calls r this calls' r' this'
    (a : ref) node :
  chain calls (begin objects context) = (r, this) →
  chain calls' this = (r', this') →
  heap this !! a = Some node →
  ∃ node', heap this' !! a = Some node' ∧ grows node node'.
Proof.
  intros Hrun Hrun' Ha.
  refine (proj2 (chain_invariant
                   (λ this2, ∃ node', heap this2 !! a = Some node' ∧ grows node node')
                   _ calls' this r' this' (chain_stackShape _ _ _ _ _ Hrun) _ Hrun')).
  - intros closed this1 this2 _ (node1 & H1 & Hg1) Hstep.
    destruct (step_grows _ _ _ _ _ Hstep H1) as (node2 & H2 & Hg2).
    exists node2. split; [done|]. by eapply grows_trans.
  - exists node. split; [done|apply grows_refl].
Qed.

Lemma step_earlier base closed this this' a :
  ordered base this → step closed this this' → a < base →
  heap this' !! a = heap this !! a.
Proof.
  intros (Hbase & _ & Hstack & _) Hstep Ha.
  destruct Hstep as [h ctx cur rest p cls cs node0 push Hfresh Hp
                    |h ctx cur rest d cls node0 push Hfresh Hd
                    |h ctx cur node0 Hfresh
                    |h ctx cur rest p cls cs Hp]; cbn in *.
  - assert (base ≤ p < length h) by (apply Hstack, elem_of_app; right; by left).
    rewrite list_lookup_insert_ne by lia. apply lookup_app_l. lia.
  - assert (base ≤ d < length h) by (apply Hstack, elem_of_app; right; by left).
    rewrite list_lookup_insert_ne by lia. apply lookup_app_l. lia.
  - apply lookup_app_l. lia.
  - done.
Qed.

(** X8: the builder never changes an object that existed when it began, a
    tree given to subTree for one: whatever calls are made, the heap still
    holds every earlier object, unchanged, at its place. *)
Theorem earlier_objects_untouched objects (context : T) calls r this :
  chain calls (begin objects context) = (r, this) →
  length objects ≤ length (heap this) ∧
  ∀ a, a < length objects → heap this !! a = objects !! a.
Proof.
  intros Hrun.
  set (P := λ this, ordered (length objects) this ∧
                    ∀ a, a < length objects → heap this !! a = objects !! a).
  assert (Hkeep : ∀ closed this1 this2,
            stackShape this1 → P this1 → step closed this1 this2 → P this2).
  { intros closed this1 this2 _ [Hord Hsame] Hstep. split.
    - by eapply step_ordered.
    - intros a Ha. rewrite <- (Hsame a Ha). by eapply step_earlier. }
  destruct (chain_invariant P Hkeep calls _ _ _
              (begin_stackShape objects context)
              (conj (begin_ordered objects context) (λ a _, eq_refl)) Hrun)
    as (_ & (Hbase & _) & Hsame).
  by split.
Qed.

Lemma step_oneParent base closed this this' :
  ordered base this → oneParent base this → step closed this this' →
  oneParent base this'.
Proof.
  intros (Hbase & _ & Hstack & _ & Hedges) [Hone Hdup] Hstep.
  destruct Hstep as [h ctx cur rest p cls cs node0 push Hfresh Hp
                    |h ctx cur rest d cls node0 push Hfresh Hd
                    |h ctx cur node0 Hfresh
                    |h ctx cur rest p cls cs Hp]; cbn in *.
  - pose proof (fresh_childless _ _ Hfresh) as Hnode.
    assert (Hpin : base ≤ p < length h)
      by (apply Hstack, elem_of_app; right; by left).
    assert (Hcs : ∀ y, y ∈ cs → y < length h).
    { intros y Hy. apply (Hedges p y); [lia|]. by exists (Composite cls cs). }
    assert (Hedge : ∀ x y,
              edge (<[p := Composite cls (cs ++ [length h])]> (h ++ [node0])) x y →
              (edge h x y ∧ y < length h ∨ x = p ∧ y = length h) ∨ x < base).
    { intros x y Hxy. destruct (decide (x < base)) as [?|Hx]; [by right|left].
      apply edge_attach in Hxy as [[-> Hy]|[Hne Hold]]; [| |done].
      - cbn in Hy. apply elem_of_app in Hy as [Hy|Hy%list_elem_of_singleton].
        + left. split; [by exists (Composite cls cs)|by apply Hcs].
        + by right.
      - left. split; [done|]. apply (Hedges x y); [lia|done]. }
    split.
    + intros x x' y Hx Hx' [[[Hxy ?]|[-> ->]]|?]%Hedge [[[Hxy' ?]|[-> ?]]|?]%Hedge;
        try lia; try done.
      by apply (Hone x x' y).
    + intros x node Hx [(<- & <- & _)|[Hne Hxn]]%list_lookup_insert_Some.
      * cbn. apply NoDup_app. split_and!.
        -- apply (Hdup p (Composite cls cs)); [lia|done].
        -- intros y Hy Hy'%list_elem_of_singleton. specialize (Hcs _ Hy). lia.
        -- apply NoDup_singleton.
      * apply lookup_snoc_Some in Hxn as [[_ Hxn]|[_ <-]].
        -- by apply (Hdup x).
        -- rewrite Hnode. apply NoDup_nil_2.
  - pose proof (fresh_childless _ _ Hfresh) as Hnode.
    assert (Hdin : base ≤ d < length h)
      by (apply Hstack, elem_of_app; right; by left).
    assert (Hedge : ∀ x y,
              edge (<[d := Decorator cls (Some (length h))]> (h ++ [node0])) x y →
              (edge h x y ∧ y < length h ∨ x = d ∧ y = length h) ∨ x < base).
    { intros x y Hxy. destruct (decide (x < base)) as [?|Hx]; [by right|left].
      apply edge_attach in Hxy as [[-> Hy]|[Hne Hold]]; [| |done].
      - cbn in Hy. apply list_elem_of_singleton in Hy. by right.
      - left. split; [done|]. apply (Hedges x y); [lia|done]. }
    split.
    + intros x x' y Hx Hx' [[[Hxy ?]|[-> ->]]|?]%Hedge [[[Hxy' ?]|[-> ?]]|?]%Hedge;
        try lia; try done.
      by apply (Hone x x' y).
    + intros x node Hx [(<- & <- & _)|[Hne Hxn]]%list_lookup_insert_Some.
      * cbn. apply NoDup_singleton.
      * apply lookup_snoc_Some in Hxn as [[_ Hxn]|[_ <-]].
        -- by apply (Hdup x).
        -- rewrite Hnode. apply NoDup_nil_2.
  - pose proof (fresh_childless _ _ Hfresh) as Hnode. split.
    + intros x x' y Hx Hx' Hxy%edge_alloc Hxy'%edge_alloc; try done.
      by apply (Hone x x' y).
    + intros x node Hx [[_ Hxn]|[_ <-]]%lookup_snoc_Some.
      * by apply (Hdup x).
      * rewrite Hnode. apply NoDup_nil_2.
  - by split.
Qed.

Lemma begin_oneParent (objects : list (@Behavior T _)) (context : T) :
  oneParent (length objects) (begin objects context).
Proof.
  split; cbn.
  - intros x x' y Hx _ (k & Hk & _). apply lookup_lt_Some in Hk. lia.
  - intros x node Hx Hk. apply lookup_lt_Some in Hk. lia.
Qed.

(** X9: the nodes the builder makes always form a forest.  A child is made
    after its parent and is an object of the heap, so no node is below itself;
    a node is the child of one node at most; and no node is listed twice among
    the children of a composite. *)
Theorem built_nodes_form_a_forest objects (context : T) calls r this :
  chain calls (begin objects context) = (r, this) →
  let base := length objects in
  (∀ x y, base ≤ x → edge (heap this) x y → x < y < length (heap this)) ∧
  (∀ x y, base ≤ x → edge (heap this) x y → ¬ inTree (heap this) y x) ∧
  (∀ x x' y, base ≤ x → base ≤ x' →
     edge (heap this) x y → edge (heap this) x' y → x = x') ∧
  (∀ x node, base ≤ x → heap this !! x = Some node → NoDup (childrenOf node)).
Proof.
  intros Hrun base.
  set (P := λ this, ordered base this ∧ oneParent base this).
  assert (Hkeep : ∀ closed this1 this2,
            stackShape this1 → P this1 → step closed this1 this2 → P this2).
  { intros closed this1 this2 _ [Hord Hone] Hstep. split.
    - by eapply step_ordered.
    - by eapply step_oneParent. }
  destruct (chain_invariant P Hkeep calls _ _ _
              (begin_stackShape objects context)
              (conj (begin_ordered objects context)
                    (begin_oneParent objects context)) Hrun)
    as (_ & (_ & _ & _ & _ & Hedges) & Hone & Hdup).
  split_and!; try done.
  intros x y Hx Hxy Hyx. destruct (Hedges x y Hx Hxy) as [Hlt Hy].
  apply (inTree_bound _ base) in Hyx; [lia|done|lia|done].
Qed.

(** X10: the tree that build returns is made of objects of the heap that
    the builder created, each no older than the root; so it holds no object
    that existed before and no node above the root, such as a decorator that
    the root was attached to. *)
Theorem built_tree_is_younger objects (context : T) calls r this period tree a :
  chain calls (begin objects context) = (r, this) →
  build period this = (Normal tree, this) →
  inTree (heap this) (root tree) a →
  (length objects ≤ root tree ∧ root tree ≤ a) ∧
  is_Some (heap this !! a) ∧
  ∀ x, length objects ≤ x → edge (heap this) x (root tree) → x ≠ a.
Proof.
  intros Hrun Hbuild Hreach.
  destruct (chain_ordered _ _ _ _ _ Hrun) as (_ & _ & _ & Hcur & Hedges).
  destruct (_currentNode this) as [c|] eqn:Hc;
    [|by rewrite build_unset in Hbuild].
  rewrite (build_set _ _ _ Hc) in Hbuild. injection Hbuild as <-. cbn in *.
  destruct (Hcur c eq_refl) as [Hrange _].
  destruct (inTree_bound _ _ _ _ Hedges (proj1 Hrange) (proj2 Hrange) Hreach).
  split_and!; [lia|lia|by apply lookup_lt_is_Some_2|].
  intros x Hx Hxc ->. destruct (Hedges a c Hx Hxc). lia.
Qed.

End Reached.

(** ** Scripts of trees *)

Section Scripts.

Context {T : Type} `{Externals}.

Implicit Types (this : @BehaviorTreeBuilder T _) (node top : @Behavior T _).
Implicit Types (c : @Call T _) (calls : list (@Call T _)).
Implicit Types (h : list (@Behavior T _)).
Implicit Types (t : @Shape T _) (ts : list (@Shape T _)).

(** Induction on trees, with the children of a composite covered. *)
Lemma Shape_induction (P : @Shape T _ → Prop) :
  (∀ cls, P (leafShape cls)) →
  (∀ cls t, P t → P (decoratorShape cls t)) →
  (∀ cls ts, Forall P ts → P (compositeShape cls ts)) →
  ∀ t, P t.
Proof.
  intros Hleaf Hdecorator Hcomposite. fix IH 1. intros [cls|cls t|cls ts].
  - apply Hleaf.
  - apply Hdecorator, IH.
  - apply Hcomposite. induction ts as [|t ts IHts]; constructor; [apply IH|exact IHts].
Qed.

Lemma layout_composite (a : ref) cls ts :
  layout a (compositeShape cls ts) =
    Composite cls (roots (S a) ts) :: layouts (S a) ts.
Proof. reflexivity. Qed.

Lemma length_layouts (a : ref) ts :
  Forall (λ t, ∀ a : ref, length (layout a t) = size t) ts →
  length (layouts a ts) = list_sum (map size ts).
Proof.
  intros Hall. revert a. induction Hall as [|t ts Ht _ IH]; intros a; [done|].
  cbn. by rewrite length_app, Ht, IH.
Qed.

Lemma length_layout t : ∀ a : ref, length (layout a t) = size t.
Proof.
  induction t as [cls|cls t IH|cls ts IH] using Shape_induction; intros a.
  - done.
  - cbn. by rewrite IH.
  - rewrite layout_composite. cbn. by rewrite length_layouts.
Qed.

Lemma call_callOfLeaf (cls : @LeafClass T) : call (callOfLeaf cls) = addLeaf cls.
Proof. by destruct cls. Qed.

Lemma call_callOfParent (cls : @ParentClass T _) :
  call (callOfParent cls) = openParent cls.
Proof. by destruct cls. Qed.

(** A leaf added, and a parent opened, on whatever is on top. *)
Lemma setChildOnParent_on h ctx cur rest p top (child : ref) :
  h !! p = Some top →
  setChildOnParent child
    {| heap := h; _context := ctx; _currentNode := cur;
       _parentNodeStack := rest ++ [p] |} =
  (Normal tt,
   {| heap := <[p := attachTo top child]> h; _context := ctx;
      _currentNode := currentAfterAttach top cur p;
      _parentNodeStack := rest ++ kept top p |}).
Proof.
  intros Hp. destruct top as [k cs|k ch|lc]; cbn.
  - by erewrite setChildOnParent_composite.
  - erewrite setChildOnParent_decorator; [|done..]. cbn. by rewrite app_nil_r.
  - erewrite setChildOnParent_leaf; [|done..]. by rewrite list_insert_id.
Qed.

Lemma addLeaf_on h ctx cur rest p top (cls : @LeafClass T) :
  h !! p = Some top →
  addLeaf cls
    {| heap := h; _context := ctx; _currentNode := cur;
       _parentNodeStack := rest ++ [p] |} =
  (Normal tt,
   {| heap := <[p := attachTo top (length h)]> (h ++ [Leaf cls]); _context := ctx;
      _currentNode := currentAfterAttach top cur p;
      _parentNodeStack := rest ++ kept top p |}).
Proof.
  intros Hp. pose proof (lookup_lt_Some _ _ _ Hp).
  rewrite addLeaf_nonempty by (cbn; by destruct rest). cbn.
  apply setChildOnParent_on. by rewrite lookup_app_l.
Qed.

Lemma openParent_on h ctx cur rest p top (cls : @ParentClass T _) :
  h !! p = Some top →
  openParent cls
    {| heap := h; _context := ctx; _currentNode := cur;
       _parentNodeStack := rest ++ [p] |} =
  (Normal tt,
   {| heap := <[p := attachTo top (length h)]> (h ++ [newNode cls]);
      _context := ctx;
      _currentNode := currentAfterAttach top cur p;
      _parentNodeStack := (rest ++ kept top p) ++ [length h] |}).
Proof.
  intros Hp. pose proof (lookup_lt_Some _ _ _ Hp).
  pose proof (setChildOnParent_on (h ++ [newNode cls]) ctx cur rest p top
                (length h)) as Hset.
  rewrite lookup_app_l in Hset by done. specialize (Hset Hp).
  rewrite openParent_eq.
  rewrite pushParentNode_nonempty by (cbn; by destruct rest).
  unfold after, set_heap. cbn [heap _context _currentNode _parentNodeStack].
  by rewrite Hset.
Qed.

(** The slot of a node filled in once its subtree is laid out behind it. *)
Lemma heap_fill h (p : ref) (received old new : @Behavior T _) l :
  p < length h →
  <[length h := new]> (<[p := received]> (h ++ [old]) ++ l) =
  <[p := received]> (h ++ new :: l).
Proof.
  intros Hp.
  rewrite insert_app_l by (rewrite length_insert, length_app; cbn; lia).
  rewrite list_insert_insert_ne by lia.
  rewrite (insert_app_r_alt h [old]) by done.
  rewrite Nat.sub_diag. cbn.
  rewrite <- insert_app_l by (rewrite length_app; cbn; lia).
  by rewrite <- app_assoc.
Qed.

Lemma chain_cons_normal c calls this this1 :
  call c this = (Normal tt, this1) → chain (c :: calls) this = chain calls this1.
Proof. intros Hcall. cbn. unfold mbind, Eff_bind. by rewrite Hcall. Qed.

(** The scripts of the children of a composite, run with the composite on
    top. *)
Lemma children_build ts :
  Forall (λ t, classed t = true →
    ∀ h ctx cur rest (p : ref) top, h !! p = Some top →
      chain (script t)
        {| heap := h; _context := ctx; _currentNode := cur;
           _parentNodeStack := rest ++ [p] |} =
      (Normal tt,
       {| heap := <[p := attachTo top (length h)]> (h ++ layout (length h) t);
          _context := ctx;
          _currentNode := closedBy top cur p (length h) t;
          _parentNodeStack := rest ++ kept top p |})) ts →
  forallb classed ts = true →
  ∀ h ctx cur rest (n : ref) k cs,
    h !! n = Some (Composite k cs) →
    ∃ cur',
      chain (concat (map script ts))
        {| heap := h; _context := ctx; _currentNode := cur;
           _parentNodeStack := rest ++ [n] |} =
      (Normal tt,
       {| heap := <[n := Composite k (cs ++ roots (length h) ts)]>
                    (h ++ layouts (length h) ts);
          _context := ctx; _currentNode := cur';
          _parentNodeStack := rest ++ [n] |}).
Proof.
  intros Hall. induction Hall as [|t ts Ht _ IH]; intros Hclassed h ctx cur rest n k cs Hn.
  - exists cur. cbn. by rewrite !app_nil_r, list_insert_id.
  - cbn in Hclassed. apply andb_true_iff in Hclassed as [Hc Hcs].
    pose proof (lookup_lt_Some _ _ _ Hn) as Hlt.
    specialize (Ht Hc h ctx cur rest n _ Hn). cbn in Ht.
    cbn [map concat]. rewrite (chain_app _ _ _ _ Ht).
    edestruct (IH Hcs) as [cur' ->].
    { apply list_lookup_insert_eq. rewrite length_app. lia. }
    exists cur'. rewrite length_insert, length_app, length_layout.
    cbn [roots layouts].
    rewrite <- insert_app_l by (rewrite length_app; lia).
    by rewrite list_insert_insert_eq, <- !app_assoc.
Qed.

(** The script of a tree, run with any frame on top. *)
Lemma script_builds t :
  classed t = true →
  ∀ h ctx cur rest (p : ref) top, h !! p = Some top →
    chain (script t)
      {| heap := h; _context := ctx; _currentNode := cur;
         _parentNodeStack := rest ++ [p] |} =
    (Normal tt,
     {| heap := <[p := attachTo top (length h)]> (h ++ layout (length h) t);
        _context := ctx;
        _currentNode := closedBy top cur p (length h) t;
        _parentNodeStack := rest ++ kept top p |}).
Proof.
  induction t as [cls|cls t IH|cls ts IH] using Shape_induction;
    intros Hclassed h ctx cur rest p top Hp;
    pose proof (lookup_lt_Some _ _ _ Hp) as Hlt.
  - cbn [script]. erewrite chain_cons_normal;
      [|rewrite call_callOfLeaf; by apply addLeaf_on].
    done.
  - cbn in Hclassed.
    destruct (capability cls) eqn:Hcap; [done|].
    cbn [script]. erewrite chain_cons_normal;
      [|rewrite call_callOfParent; by apply openParent_on].
    unfold newNode. rewrite Hcap.
    rewrite (IH Hclassed _ _ _ _ (length h) (Decorator cls None)).
    + rewrite length_insert, length_app. cbn.
      rewrite Nat.add_1_r, app_nil_r. by rewrite heap_fill.
    + rewrite list_lookup_insert_ne by lia. by apply list_lookup_middle.
  - cbn in Hclassed.
    destruct (capability cls) eqn:Hcap; [|done].
    cbn [script]. erewrite chain_cons_normal;
      [|rewrite call_callOfParent; by apply openParent_on].
    unfold newNode. rewrite Hcap.
    edestruct (children_build ts IH Hclassed
                 (<[p := attachTo top (length h)]> (h ++ [Composite cls []]))
                 ctx (currentAfterAttach top cur p) (rest ++ kept top p)
                 (length h) cls []) as [cur' Hchildren].
    { rewrite list_lookup_insert_ne by lia. by apply list_lookup_middle. }
    rewrite (chain_app _ _ _ _ Hchildren).
    rewrite length_insert, length_app. cbn [length]. rewrite Nat.add_1_r.
    erewrite chain_cons_normal.
    2:{ eapply endComposite_composite; [done|]. cbn.
        apply list_lookup_insert_eq.
        rewrite length_app, length_insert, length_app. cbn. lia. }
    cbn. by rewrite heap_fill.
Qed.

Lemma readTree_mono fuel : ∀ fuel' h (a : ref) t,
  readTree fuel h a = Some t → fuel ≤ fuel' → readTree fuel' h a = Some t.
Proof.
  induction fuel as [|fuel IH]; intros fuel' h a t Hread Hle; [done|].
  destruct fuel' as [|fuel']; [lia|]. cbn in *.
  destruct (h !! a) as [[k cs|k [c|]|lc]|]; try done.
  - apply fmap_Some in Hread as (ts & Hts & ->).
    apply fmap_Some. exists ts. split; [|done].
    apply mapM_Some. apply mapM_Some in Hts.
    eapply Forall2_impl; [exact Hts|]. intros x y Hxy. cbn in *.
    apply IH; [done|lia].
  - apply fmap_Some in Hread as (t' & Ht' & ->).
    apply fmap_Some. exists t'. split; [|done]. apply IH; [done|lia].
Qed.

Lemma read_children h ts :
  Forall (λ t, ∀ (a : ref),
    (∀ i node, layout a t !! i = Some node → h !! (a + i) = Some node) →
    readTree (size t) h a = Some t) ts →
  ∀ (b : ref) fuel,
    (∀ i node, layouts b ts !! i = Some node → h !! (b + i) = Some node) →
    list_sum (map size ts) ≤ fuel →
    mapM (readTree fuel h) (roots b ts) = Some ts.
Proof.
  intros Hall. induction Hall as [|t ts Ht _ IH]; intros b fuel Hlay Hfuel;
    [done|].
  change (list_sum (map size (t :: ts)))
    with (size t + list_sum (map size ts)) in Hfuel.
  apply mapM_Some. cbn [roots]. constructor.
  - apply (readTree_mono (size t)); [|lia]. apply Ht.
    intros i node Hi. apply Hlay. cbn. by apply lookup_app_l_Some.
  - apply mapM_Some, IH; [|lia].
    intros i node Hi. rewrite <- Nat.add_assoc. apply Hlay. cbn.
    rewrite lookup_app_r by (rewrite length_layout; lia).
    rewrite length_layout. by replace (size t + i - size t) with i by lia.
Qed.

(** Reading back a tree from where it is laid out. *)
Lemma read_layout t : ∀ (a : ref) h,
  (∀ i node, layout a t !! i = Some node → h !! (a + i) = Some node) →
  readTree (size t) h a = Some t.
Proof.
  induction t as [cls|cls t IH|cls ts IH] using Shape_induction; intros a h Hlay.
  - cbn. specialize (Hlay 0 _ eq_refl). rewrite Nat.add_0_r in Hlay.
    by rewrite Hlay.
  - cbn. pose proof (Hlay 0 _ eq_refl) as Ha. rewrite Nat.add_0_r in Ha.
    rewrite Ha. rewrite (IH (S a) h); [done|].
    intros i node Hi. replace (S a + i) with (a + S i) by lia. by apply Hlay.
  - cbn [size readTree]. pose proof (Hlay 0 _ eq_refl) as Ha.
    rewrite Nat.add_0_r in Ha. rewrite Ha.
    rewrite (read_children h ts); [done| |..|done].
    + eapply Forall_impl; [exact IH|]. intros t Ht a'. apply Ht.
    + intros i node Hi. replace (S a + i) with (a + S i) by lia.
      apply Hlay. by rewrite layout_composite.
Qed.

Lemma read_built t : ∀ (n : ref) h,
  (∀ i node, layout n t !! i = Some node → h !! (n + i) = Some node) →
  readTree (size t) h (builtRoot n t) = Some (builtShape t).
Proof.
  induction t as [cls|cls t IH|cls ts IH] using Shape_induction; intros n h Hlay.
  - by apply read_layout.
  - assert (Hchild : readTree (size (decoratorShape cls t)) h (builtRoot (S n) t)
                     = Some (builtShape t)).
    { apply (readTree_mono (size t)); [|cbn; lia]. apply IH.
      intros i node Hi. replace (S n + i) with (n + S i) by lia. by apply Hlay. }
    destruct t; [by apply read_layout|exact Hchild..].
  - by apply read_layout.
Qed.

Lemma closedBy_decorator t : ∀ cls cur (n : ref),
  closedBy (Decorator cls None) cur n (S n) t
  = Some (builtRoot n (decoratorShape cls t)).
Proof.
  induction t as [lc|cls' t IH|cls' ts IH] using Shape_induction; intros cls cur n.
  - done.
  - cbn [closedBy currentAfterAttach]. rewrite IH. done.
  - done.
Qed.

(** X11: in any state with an object on top of the parent stack, the script
    of a tree completes and creates the objects of the tree one after the
    other behind the objects that exist; the object on top receives the root
    of the tree (as last child if it is a composite, which stays on the
    stack; as child if it is a decorator, which is closed), nothing else of
    the earlier heap changes, and reading the heap back from the root gives
    the tree. *)
Theorem script_builds_its_tree this rest (p : ref) top t :
  _parentNodeStack this = rest ++ [p] →
  heap this !! p = Some top →
  classed t = true →
  let n := length (heap this) in
  let this' := after (chain (script t)) this in
  completion (chain (script t)) this = Normal tt ∧
  heap this' = <[p := attachTo top n]> (heap this ++ layout n t) ∧
  readTree (size t) (heap this') n = Some t ∧
  _parentNodeStack this' = rest ++ kept top p ∧
  _currentNode this' = closedBy top (_currentNode this) p n t ∧
  _context this' = _context this.
Proof.
  intros Hst Hp Hclassed n this'. subst this'.
  pose proof (lookup_lt_Some _ _ _ Hp) as Hlt.
  destruct this as [h ctx cur st]. cbn in *. subst st.
  unfold completion, after.
  rewrite (script_builds t Hclassed h ctx cur rest p top Hp). cbn.
  split_and!; try done.
  apply read_layout. intros i node Hi.
  rewrite list_lookup_insert_ne by lia.
  rewrite lookup_app_r by lia.
  by replace (length h + i - length h) with i by lia.
Qed.

(** X12: on a new builder the script of a tree that is not a bare leaf
    completes, lays the objects of the tree out behind the objects that
    exist, and leaves the stack empty; build then succeeds.  Its root is the
    frame closed last: the root of the tree when that is a composite or a
    decorator over a leaf, and otherwise the first node below the leading
    decorators that is a composite or a decorator over a leaf; the decorators
    above it are objects of the heap, each with its child, but are not part
    of the tree that build returns. *)
Theorem script_on_new_builder objects (context : T) t period :
  classed t = true →
  (∀ cls, t ≠ leafShape cls) →
  let n := length objects in
  (chain (script t);; build period) (begin objects context) =
    (Normal {| context := context; root := builtRoot n t;
               updatePeriod := default 0x1.999999999999ap-3%float period |},
     {| heap := objects ++ layout n t; _context := context;
        _currentNode := Some (builtRoot n t); _parentNodeStack := [] |}) ∧
  readTree (size t) (objects ++ layout n t) n = Some t ∧
  readTree (size t) (objects ++ layout n t) (builtRoot n t) = Some (builtShape t).
Proof.
  intros Hclassed Hleaf n.
  assert (Hlay : ∀ i node, layout n t !! i = Some node →
            (objects ++ layout n t) !! (n + i) = Some node).
  { intros i node Hi. rewrite lookup_app_r by (subst n; lia).
    by replace (n + i - length objects) with i by (subst n; lia). }
  split_and!; [|by apply read_layout|by apply read_built].
  assert (Hrun : chain (script t) (begin objects context) =
            (Normal tt,
             {| heap := objects ++ layout n t; _context := context;
                _currentNode := Some (builtRoot n t); _parentNodeStack := [] |})).
  { destruct t as [lc|cls t|cls ts]; [by destruct (Hleaf lc)|..];
      cbn in Hclassed; destruct (capability cls) eqn:Hcap; try done.
    - cbn [script]. erewrite chain_cons_normal;
        [|rewrite call_callOfParent; by apply openParent_root].
      unfold newNode. rewrite Hcap. cbn [begin heap _context _currentNode].
      rewrite (script_builds t Hclassed _ _ _ [] (length objects)
                 (Decorator cls None)) by by apply list_lookup_middle.
      rewrite length_app. cbn [length]. rewrite Nat.add_1_r.
      rewrite closedBy_decorator. cbn [attachTo kept app].
      rewrite <- app_assoc. cbn [app].
      rewrite insert_app_r_alt, Nat.sub_diag by done. done.
    - cbn [script]. erewrite chain_cons_normal;
        [|rewrite call_callOfParent; by apply openParent_root].
      unfold newNode. rewrite Hcap. cbn [begin heap _context _currentNode].
      edestruct (children_build ts) with (h := objects ++ [Composite cls []])
        (n := length objects) (rest := @nil nat) (k := cls) (cs := @nil nat)
        as [cur' Hchildren].
      + apply Forall_forall. intros t' _ Ht'. by apply script_builds.
      + done.
      + by apply list_lookup_middle.
      + cbn [app] in Hchildren. rewrite (chain_app _ _ _ _ Hchildren).
        erewrite chain_cons_normal.
        2:{ eapply (endComposite_composite _ []); [done|]. cbn.
            apply list_lookup_insert_eq. rewrite !length_app. cbn. lia. }
        cbn. rewrite length_app. cbn [length]. rewrite Nat.add_1_r.
        rewrite <- app_assoc. cbn [app].
        rewrite insert_app_r_alt, Nat.sub_diag by done. done. }
  unfold mbind, Eff_bind. rewrite Hrun. by erewrite build_set.
Qed.

End Scripts.

(** ** Nodes off the stack *)

Section Frozen.

Context {T : Type} `{Externals}.

Implicit Types (this : @BehaviorTreeBuilder T _) (node top : @Behavior T _).
Implicit Types (c : @Call T _) (calls : list (@Call T _)).
Implicit Types (h : list (@Behavior T _)).

Lemma step_frozen closed this this' (a : ref) :
  step closed this this' →
  a < length (heap this) → a ∉ _parentNodeStack this →
  heap this' !! a = heap this !! a ∧
  a < length (heap this') ∧ a ∉ _parentNodeStack this'.
Proof.
  intros Hstep Ha Hoff.
  destruct Hstep as [h ctx cur rest p cls cs node0 push Hfresh Hp
                    |h ctx cur rest d cls node0 push Hfresh Hd
                    |h ctx cur node0 Hfresh
                    |h ctx cur rest p cls cs Hp]; cbn in *.
  - assert (a ≠ p) by (intros ->; apply Hoff, elem_of_app; right; by left).
    rewrite length_insert, length_app. split_and!.
    + rewrite list_lookup_insert_ne by done. by apply lookup_app_l.
    + lia.
    + intros [?|Hin%elem_of_pushed]%elem_of_app; [done|lia].
  - assert (a ≠ d) by (intros ->; apply Hoff, elem_of_app; right; by left).
    rewrite length_insert, length_app. split_and!.
    + rewrite list_lookup_insert_ne by done. by apply lookup_app_l.
    + lia.
    + intros [Hin|Hin%elem_of_pushed]%elem_of_app; [|lia].
      apply Hoff, elem_of_app. by left.
  - rewrite length_app. split_and!.
    + by apply lookup_app_l.
    + lia.
    + intros Hin%list_elem_of_singleton. lia.
  - split_and!; [done..|]. intros Hin. apply Hoff, elem_of_app. by left.
Qed.

Lemma chain_frozen calls this r this' (a : ref) :
  stackShape this → chain calls this = (r, this') →
  a < length (heap this) → a ∉ _parentNodeStack this →
  heap this' !! a = heap this !! a ∧ a ∉ _parentNodeStack this'.
Proof.
  intros Hshape Hrun Ha Hoff.
  set (P := λ this2, heap this2 !! a = heap this !! a ∧
                     a < length (heap this2) ∧ a ∉ _parentNodeStack this2).
  assert (Hkeep : ∀ closed this1 this2,
            stackShape this1 → P this1 → step closed this1 this2 → P this2).
  { intros closed this1 this2 _ (Hsame & Hlt & Hnot) Hstep.
    destruct (step_frozen _ _ _ a Hstep Hlt Hnot) as (Hsame' & Hlt' & Hnot').
    split_and!; [congruence|done..]. }
  destruct (chain_invariant P Hkeep calls _ _ _ Hshape
              (conj eq_refl (conj Ha Hoff)) Hrun) as (_ & Hsame & _ & Hnot).
  by split.
Qed.

(** X13: an object that is not on the parent stack is never changed again:
    whatever calls follow, it stays as it is and never comes onto the stack.
    Leaves, closed decorators and ended composites are final. *)
Theorem closed_nodes_are_final objects (context : T) calls r this calls' r' this'
    (a : ref) :
  chain calls (begin objects context) = (r, this) →
  chain calls' this = (r', this') →
  a < length (heap this) →
  a ∉ _parentNodeStack this →
  heap this' !! a = heap this !! a ∧ a ∉ _parentNodeStack this'.
Proof.
  intros Hrun Hrun'. apply (chain_frozen calls' this r'); [|done].
  by eapply chain_stackShape.
Qed.

Lemma readTree_ext fuel : ∀ h h' (a : ref),
  (∀ b, inTree h a b → h' !! b = h !! b) →
  readTree fuel h' a = readTree fuel h a.
Proof.
  induction fuel as [|fuel IH]; intros h h' a Hsame; [done|].
  cbn. rewrite (Hsame a) by apply rtc_refl.
  destruct (h !! a) as [[k cs|k [c|]|lc]|] eqn:Ha; try done.
  - f_equal. apply Forall_mapM_ext, Forall_forall. intros c Hc.
    apply IH. intros b Hb. apply Hsame.
    eapply rtc_l; [|exact Hb]. by exists (Composite k cs).
  - f_equal. apply IH. intros b Hb. apply Hsame.
    eapply rtc_l; [|exact Hb]. exists (Decorator k (Some c)).
    split; [done|]. cbn. by left.
Qed.

(** X14: when build is called while no open frame is in the tree of the
    current node, with the stack empty for one, the tree it returns is final:
    whatever is called on the builder afterwards, the objects of the tree
    stay as they are and the tree read from its root is the same. *)
Theorem built_tree_is_final objects (context : T) calls r this period tree
    calls' r' this' :
  chain calls (begin objects context) = (r, this) →
  build period this = (Normal tree, this) →
  (∀ a, a ∈ _parentNodeStack this → ¬ inTree (heap this) (root tree) a) →
  chain calls' this = (r', this') →
  (∀ a, inTree (heap this) (root tree) a → heap this' !! a = heap this !! a) ∧
  (∀ fuel, readTree fuel (heap this') (root tree)
           = readTree fuel (heap this) (root tree)).
Proof.
  intros Hrun Hbuild Houtside Hrun'.
  pose proof (chain_stackShape _ _ _ _ _ Hrun) as Hshape.
  destruct (chain_ordered _ _ _ _ _ Hrun) as (_ & _ & _ & Hcur & Hedges).
  destruct (_currentNode this) as [c|] eqn:Hc;
    [|by rewrite build_unset in Hbuild].
  rewrite (build_set _ _ _ Hc) in Hbuild. injection Hbuild as <-. cbn in *.
  destruct (Hcur c eq_refl) as [Hrange Hoff].
  assert (Hsame : ∀ a, inTree (heap this) c a → heap this' !! a = heap this !! a).
  { intros a Ha.
    destruct (inTree_bound _ _ _ _ Hedges (proj1 Hrange) (proj2 Hrange) Ha).
    refine (proj1 (chain_frozen calls' this r' this' a Hshape Hrun' _ _)); [lia|].
    intros Hin. by apply (Houtside a). }
  split; [done|]. intros fuel. by apply readTree_ext.
Qed.

End Frozen.

(** ** Further runs of concrete call sequences *)

(** Attaching a leaf to a decorator just opened. *)
Lemma call_depth_witness :
  depth (after (call (call_action succeed)) (after (chain [call_alwaysFail]) start))
    + 1
  = depth (after (chain [call_alwaysFail]) start) + 0.
Proof.
  exact (call_depth [] tt [call_alwaysFail] (Normal tt)
           (after (chain [call_alwaysFail]) start) (call_action succeed)
           eq_refl eq_refl).
Defined.

(** A leaf attached to a decorator leaves the composite below it alone. *)
Lemma call_frame_witness :
  heap (after (call (call_action succeed))
          (after (chain [call_sequence None; call_alwaysFail]) start)) !! 0
  = Some (Composite (Sequence AbortTypes_None) [1]).
Proof.
  refine (proj1 (call_frame (call_action succeed)
                   (after (chain [call_sequence None; call_alwaysFail]) start) 0
                   _ _)).
  - vm_compute. repeat constructor.
  - vm_compute. discriminate.
Defined.


Lemma objects_only_grow_witness :
  ∃ node',
    heap (after (chain [call_alwaysFail; call_action succeed; call_endComposite])
            (after (chain [call_sequence None; call_action succeed]) start)) !! 0
      = Some node' ∧
    grows (Composite (Sequence AbortTypes_None) [1]) node'.
Proof.
  exact (objects_only_grow [] tt [call_sequence None; call_action succeed]
           (Normal tt)
           (after (chain [call_sequence None; call_action succeed]) start)
           [call_alwaysFail; call_action succeed; call_endComposite] (Normal tt)
           (after (chain [call_alwaysFail; call_action succeed; call_endComposite])
              (after (chain [call_sequence None; call_action succeed]) start))
           0 (Composite (Sequence AbortTypes_None) [1])
           eq_refl eq_refl eq_refl).
Defined.

Lemma earlier_objects_untouched_witness :
  heap (after (chain [call_sequence None; call_action succeed])
          (begin (H := sampleExternals) [Leaf (LogAction "earlier")] tt)) !! 0
  = Some (Leaf (LogAction "earlier")).
Proof.
  refine (proj2 (earlier_objects_untouched (H := sampleExternals)
                   [Leaf (LogAction "earlier")] tt
                   [call_sequence None; call_action succeed] (Normal tt)
                   (after (chain [call_sequence None; call_action succeed])
                      (begin [Leaf (LogAction "earlier")] tt)) eq_refl) 0 _).
  vm_compute. constructor.
Defined.

(** The forest after begin(ctx).alwaysFail().sequence().action(_ => Success). *)
Lemma built_nodes_form_a_forest_witness :
  (∀ x y, 0 ≤ x →
     edge (heap (after (chain [call_alwaysFail; call_sequence None;
                               call_action succeed]) start)) x y →
     x < y < 3) ∧
  (∀ x x' y, 0 ≤ x → 0 ≤ x' →
     edge (heap (after (chain [call_alwaysFail; call_sequence None;
                               call_action succeed]) start)) x y →
     edge (heap (after (chain [call_alwaysFail; call_sequence None;
                               call_action succeed]) start)) x' y →
     x = x').
Proof.
  destruct (built_nodes_form_a_forest (H := sampleExternals) [] tt
              [call_alwaysFail; call_sequence None; call_action succeed]
              (Normal tt)
              (after (chain [call_alwaysFail; call_sequence None;
                             call_action succeed]) start) eq_refl)
    as (Hyounger & _ & Hone & _).
  split; [exact Hyounger|exact Hone].
Defined.

(** begin(ctx).alwaysFail().sequence().action(_ => Success).endComposite()
    .build(): the root is the sequence; the leaf is in its tree, the
    decorator above it is not. *)
Lemma built_tree_is_younger_witness :
  (0 ≤ 1 ∧ 1 ≤ 2) ∧
  is_Some (heap (after (chain [call_alwaysFail; call_sequence None;
                               call_action succeed; call_endComposite]) start)
             !! 2) ∧
  ∀ x, 0 ≤ x →
    edge (heap (after (chain [call_alwaysFail; call_sequence None;
                              call_action succeed; call_endComposite]) start)) x 1 →
    x ≠ 2.
Proof.
  refine (built_tree_is_younger (H := sampleExternals) [] tt
            [call_alwaysFail; call_sequence None; call_action succeed;
             call_endComposite] (Normal tt)
            (after (chain [call_alwaysFail; call_sequence None;
                           call_action succeed; call_endComposite]) start)
            None
            {| context := tt; root := 1;
               updatePeriod := 0x1.999999999999ap-3%float |}
            2 eq_refl eq_refl _).
  eapply rtc_l; [|apply rtc_refl].
  exists (Composite (Sequence AbortTypes_None) [2]). split; [reflexivity|by left].
Defined.

(** An inverter over a leaf, scripted under an open sequence. *)
Lemma script_builds_its_tree_witness :
  heap (after (chain (script (decoratorShape Inverter
                                (leafShape (ExecuteAction succeed)))))
          (after (sequence None) start)) =
    [Composite (Sequence AbortTypes_None) [1]; Decorator Inverter (Some 2);
     Leaf (ExecuteAction succeed)] ∧
  readTree 2
    (heap (after (chain (script (decoratorShape Inverter
                                   (leafShape (ExecuteAction succeed)))))
             (after (sequence None) start))) 1 =
    Some (decoratorShape Inverter (leafShape (ExecuteAction succeed))) ∧
  _parentNodeStack
    (after (chain (script (decoratorShape Inverter
                             (leafShape (ExecuteAction succeed)))))
       (after (sequence None) start)) = [0].
Proof.
  destruct (script_builds_its_tree (after (sequence None) start) [] 0
              (Composite (Sequence AbortTypes_None) [])
              (decoratorShape Inverter (leafShape (ExecuteAction succeed)))
              eq_refl eq_refl eq_refl)
    as (_ & Hheap & Hread & Hstack & _).
  split_and!; [exact Hheap|exact Hread|exact Hstack].
Defined.

(** begin(ctx).alwaysFail().inverter().action(_ => Success).build(): the
    tree returned is the inverter over the leaf. *)
Lemma script_on_new_builder_witness :
  (chain (script (decoratorShape AlwaysFail
                    (decoratorShape Inverter (leafShape (ExecuteAction succeed)))));;
   build None) start =
    (Normal {| context := tt; root := 1;
               updatePeriod := 0x1.999999999999ap-3%float |},
     {| heap := [Decorator AlwaysFail (Some 1); Decorator Inverter (Some 2);
                 Leaf (ExecuteAction succeed)];
        _context := tt; _currentNode := Some 1; _parentNodeStack := [] |}) ∧
  readTree 3
    [Decorator AlwaysFail (Some 1); Decorator Inverter (Some 2);
     Leaf (ExecuteAction succeed)] 1 =
    Some (decoratorShape (H := sampleExternals) Inverter
            (leafShape (ExecuteAction succeed))).
Proof.
  destruct (script_on_new_builder (H := sampleExternals) [] tt
              (decoratorShape AlwaysFail
                 (decoratorShape Inverter (leafShape (ExecuteAction succeed))))
              None eq_refl) as (Hbuild & _ & Hread).
  - intros cls. discriminate.
  - split; [exact Hbuild|exact Hread].
Defined.

(** The leaf of begin(ctx).sequence().action(_ => Success) is final. *)
Lemma closed_nodes_are_final_witness :
  heap (after (chain [call_action succeed; call_endComposite])
          (after (chain [call_sequence None; call_action succeed]) start)) !! 1
    = Some (Leaf (ExecuteAction succeed)) ∧
  (1 ∉ _parentNodeStack
         (after (chain [call_action succeed; call_endComposite])
            (after (chain [call_sequence None; call_action succeed]) start))).
Proof.
  refine (closed_nodes_are_final [] tt [call_sequence None; call_action succeed]
            (Normal tt)
            (after (chain [call_sequence None; call_action succeed]) start)
            [call_action succeed; call_endComposite] (Normal tt)
            (after (chain [call_action succeed; call_endComposite])
               (after (chain [call_sequence None; call_action succeed]) start))
            1 eq_refl eq_refl _ _).
  - vm_compute. constructor.
  - intros Hin. vm_compute in Hin. apply list_elem_of_singleton in Hin.
    discriminate.
Defined.

(** The tree of begin(ctx).sequence().action(_ => Success).endComposite() is
    final: a sequence opened and filled afterwards does not touch it. *)
Lemma built_tree_is_final_witness :
  (∀ a,
     inTree (heap (after (chain [call_sequence None; call_action succeed;
                                 call_endComposite]) start)) 0 a →
     heap (after (chain [call_sequence None; call_action succeed])
             (after (chain [call_sequence None; call_action succeed;
                            call_endComposite]) start)) !! a
     = heap (after (chain [call_sequence None; call_action succeed;
                           call_endComposite]) start) !! a) ∧
  (∀ fuel,
     readTree fuel
       (heap (after (chain [call_sequence None; call_action succeed])
                (after (chain [call_sequence None; call_action succeed;
                               call_endComposite]) start))) 0
     = readTree fuel
         (heap (after (chain [call_sequence None; call_action succeed;
                              call_endComposite]) start)) 0).
Proof.
  refine (built_tree_is_final (H := sampleExternals) [] tt
            [call_sequence None; call_action succeed; call_endComposite]
            (Normal tt)
            (after (chain [call_sequence None; call_action succeed;
                           call_endComposite]) start)
            None
            {| context := tt; root := 0;
               updatePeriod := 0x1.999999999999ap-3%float |}
            [call_sequence None; call_action succeed] (Normal tt)
            (after (chain [call_sequence None; call_action succeed])
               (after (chain [call_sequence None; call_action succeed;
                              call_endComposite]) start))
            eq_refl eq_refl _ eq_refl).
  intros a Hin. vm_compute in Hin. by apply elem_of_nil in Hin.
Defined.
